
(** * prettier-plugin-sort-members: the data-dependency comparator

    A shallow embedding of [src/lib/comparator/data-dependency.ts] and of the
    [preprocess] rewrite, with the properties of the specification stated
    over it.

    Conventions of the embedding.
    - A JavaScript string is a [string], one character per code unit, so
      that the order of [String.le] is the order of the default [sort];
      [undefined] is [None].
    - The syntax tree follows the TSESTree typings: one constructor per node
      kind the code dispatches on, carrying the fields the code reads.
    - The dictionary [DataDependencyMap] is the list of its own properties in
      creation order, from which [Object.keys] is computed.  Names that
      collide with the members every object literal inherits ([constructor],
      [toString], ...) are outside the model.
    - The pure functions of the first part thread the mutable objects
      ([q], [map] and its arrays) as values.  The [Store] module repeats
      them over a store in which arrays have an identity, to state what a
      call leaves untouched. *)

From Stdlib Require Import Ascii String ZArith.
From Equations Require Import Equations.
From stdpp Require Import base option list strings sorting gmap.

Set Warnings "-register-all,-clear-no-such-hyp".

(** ** Strings and truthiness *)

Module JS.

(** [s.endsWith(c)] for a one-character [c]. *)
Fixpoint endsWith (s : string) (c : ascii) : bool :=
  match s with
  | EmptyString => false
  | String a EmptyString => bool_decide (a = c)
  | String _ rest => endsWith rest c
  end.

(** [s.slice(0, -1)]: everything but the last character. *)
Fixpoint slice_0_m1 (s : string) : string :=
  match s with
  | EmptyString => EmptyString
  | String _ EmptyString => EmptyString
  | String a rest => String a (slice_0_m1 rest)
  end.

(** Truthiness of a value of type [string | undefined]. *)
Definition truthy (v : option string) : bool :=
  match v with
  | Some s => negb (bool_decide (s = EmptyString))
  | None => false
  end.

(** [a || b] on [string | undefined]. *)
Definition or_else (a b : option string) : option string :=
  if truthy a then a else b.

(** [l.indexOf(x)]: position of the first element strictly equal to [x],
    [-1] when there is none.  No string equals [undefined]. *)
Fixpoint indexOf_from (i : Z) (l : list string) (x : string) : Z :=
  match l with
  | [] => (-1)%Z
  | y :: rest => if bool_decide (y = x) then i else indexOf_from (i + 1)%Z rest x
  end.

Definition indexOf (l : list string) (x : option string) : Z :=
  match x with
  | Some s => indexOf_from 0%Z l s
  | None => (-1)%Z
  end.

End JS.

(** ** Syntax tree *)

Record Position := { line : nat; column : nat }.
Record SourceLocation := { loc_start : Position; loc_end : Position }.

(** The fields every node has besides its kind and its children. *)
Record BaseNode := { range : nat * nat; loc : SourceLocation }.

(** The value of a [Literal] node: [string | number | boolean | null |
    bigint | RegExp]; numbers are kept by their source text. *)
Inductive LiteralValue :=
| LString (s : string)
| LNumber (raw : string)
| LBoolean (b : bool)
| LNull
| LBigInt (raw : string)
| LRegExp (pattern flags : string).

(** [base] is recorded on the three declaration bodies, where [preprocess]
    copies it; no function below reads it.  [OtherNode] stands for every
    kind without a case of its own (methods, signatures, functions,
    statements, ...): its kind, its [key] and [computed] fields when it has
    them, and its children. *)
Inductive Node :=
| TSInterfaceBody (base : BaseNode) (body : list Node)
| ClassBody (base : BaseNode) (body : list Node)
| TSTypeLiteral (base : BaseNode) (members : list Node)
| ObjectExpression (properties : list Node)
| PropertyDefinition (key : Node) (computed : bool) (value : option Node)
| Property (key : Node) (computed : bool) (value : Node)
| ArrayExpression (elements : list (option Node))
| CallExpression (callee : Node) (arguments : list Node)
| MemberExpression (object property : Node)
| ChainExpression (expression : Node)
| TSAsExpression (expression : Node)
| ThisExpression
| Identifier (name : string)
| PrivateIdentifier (name : string)
| Literal (value : LiteralValue)
| PrivateName (id : Node)
| StringLiteral (value : string)
| OtherNode (type : string) (key : option Node) (computed : option bool)
    (children : list Node).

(** ["key" in $], returning the key. *)
Definition key_of (node : Node) : option Node :=
  match node with
  | PropertyDefinition key _ _ | Property key _ _ => Some key
  | OtherNode _ key _ _ => key
  | _ => None
  end.

(** ["computed" in $ && $.computed === true]. *)
Definition computed_true (node : Node) : bool :=
  match node with
  | PropertyDefinition _ computed _ | Property _ computed _ => computed
  | OtherNode _ _ (Some computed) _ => computed
  | _ => false
  end.

(** ** Name resolver *)

Definition extractName (node : Node) : option string :=
  match key_of node with
  | Some key =>
      match key with
      | Identifier name | PrivateIdentifier name =>
          if computed_true node then None else Some name
      | Literal value =>
          match value with
          | LString s => Some s
          | _ => None
          end
      | PrivateName id =>
          match id with
          | Identifier name => Some name
          | _ => None
          end
      | StringLiteral value => Some value
      | _ => None
      end
  | None => None
  end.

(** ** Dependency mapping *)

(** A JavaScript object used as a dictionary: its own properties, in
    creation order. *)
Module Dict.

Definition t (V : Type) : Type := list (string * V).

(** [map[k]] *)
Fixpoint get {V} (m : t V) (k : string) : option V :=
  match m with
  | [] => None
  | (k', v) :: rest => if bool_decide (k' = k) then Some v else get rest k
  end.

(** [map[k] = v]: overwrite in place, or create the property last. *)
Fixpoint set {V} (m : t V) (k : string) (v : V) : t V :=
  match m with
  | [] => [(k, v)]
  | (k', v') :: rest =>
      if bool_decide (k' = k) then (k', v) :: rest else (k', v') :: set rest k v
  end.

Definition own_keys {V} (m : t V) : list string := m.*1.

End Dict.

Definition DataDependencyMap : Type := Dict.t (list string).

(** ** Ordering comparator *)

(** Modelled from the spec: [Order] is declared in [comparator.ts], which is
    not among the sources; section 4.3 names its three results. *)
Inductive Order := Less | Equal | Greater.

Record Resolved := { name : option string; dependencies : list string }.

(** The selector of [dataDependency]: the member's name and its entry. *)
Definition resolve (dependencyMap : DataDependencyMap) (node : Node) : Resolved :=
  let name := extractName node in
  let deps :=
    if JS.truthy name then
      match name with
      | Some n => default [] (Dict.get dependencyMap n)
      | None => []
      end
    else [] in
  {| name := name; dependencies := deps |}.

(** The three-way comparison of [dataDependency], branch for branch. *)
Definition compare_resolved (a b : Resolved) : Order :=
  if bool_decide (length (dependencies a) = 0) && bool_decide (length (dependencies b) = 0)
  then Equal
  else if negb (bool_decide (JS.indexOf (dependencies a) (name b) = (-1)%Z))
  then Greater
  else if negb (bool_decide (JS.indexOf (dependencies b) (name a) = (-1)%Z))
  then Less
  else if bool_decide (length (dependencies a) ≤ length (dependencies b))
  then Less
  else if bool_decide (length (dependencies b) ≤ length (dependencies a))
  then Greater
  else Equal.

(** Modelled from the spec: [C.by] is declared in [comparator.ts], which is
    not among the sources.  Section 4.3 applies the comparison to the
    dependency sets resolved for the two members, so [C.by f cmp] compares
    the images of its arguments under [f]. *)
Definition C_by {A B} (f : A → B) (cmp : B → B → Order) (a b : A) : Order :=
  cmp (f a) (f b).

Definition dataDependency (dependencyMap : DataDependencyMap) : Node → Node → Order :=
  C_by (resolve dependencyMap) compare_resolved.

(** ** Dependency extractor: traversal *)

Record DependencyQueueEntry := { parent : option string; node : option Node }.

(** [queueEntryMapper(cur)(n)]; [cur.node] is the node being visited. *)
Definition queueEntryMapper (cur : DependencyQueueEntry) (cur_node : Node)
    (n : option Node) : DependencyQueueEntry :=
  {| parent := JS.or_else (parent cur) (extractName cur_node); node := n |}.

(** The body of [if (cur.parent) { ... }]: fetch or create [map[parent]],
    strip one trailing question mark from the property name, push it. *)
Definition record_dependency (map : DataDependencyMap) (parent dep_name : string)
    : DataDependencyMap :=
  let deps := default [] (Dict.get map parent) in
  let dep_name :=
    if JS.endsWith dep_name "?" then JS.slice_0_m1 dep_name else dep_name in
  Dict.set map parent (deps ++ [dep_name]).

(** One turn of the [while (q.length)] loop on the entry taken from the
    front: the entries pushed at the back, and the mapping afterwards. *)
Definition visit (cur : DependencyQueueEntry) (map : DataDependencyMap)
    : list DependencyQueueEntry * DataDependencyMap :=
  match node cur with
  | None => ([], map)
  | Some cur_node =>
      let enqueue := queueEntryMapper cur cur_node in
      match cur_node with
      | TSInterfaceBody _ body | ClassBody _ body =>
          (enqueue ∘ Some <$> body, map)
      | TSTypeLiteral _ members =>
          (enqueue ∘ Some <$> members, map)
      | ObjectExpression properties =>
          (enqueue ∘ Some <$> properties, map)
      | PropertyDefinition _ _ value =>
          match value with
          | Some v => ([enqueue (Some v)], map)
          | None => ([], map)
          end
      | Property _ _ value => ([enqueue (Some value)], map)
      | ArrayExpression elements =>
          (enqueue <$> elements, map)
      | CallExpression callee arguments =>
          (match callee with
           | MemberExpression object _ => [enqueue (Some object)]
           | _ => []
           end ++ (enqueue ∘ Some <$> arguments), map)
      | MemberExpression object property =>
          match property with
          | Identifier dep_name =>
              match object with
              | ThisExpression =>
                  match parent cur with
                  | Some p =>
                      if JS.truthy (Some p)
                      then ([], record_dependency map p dep_name)
                      else ([], map)
                  | None => ([], map)
                  end
              | MemberExpression _ _ =>
                  ([ {| parent := JS.or_else (parent cur) (extractName cur_node);
                        node := Some object |} ], map)
              | _ => ([], map)
              end
          | _ => ([], map)
          end
      | ChainExpression expression | TSAsExpression expression =>
          ([enqueue (Some expression)], map)
      | _ => ([], map)
      end
  end.

(** Number of nodes of a subtree; an empty array slot counts for one. *)
Fixpoint node_size (n : Node) : nat :=
  S match n with
    | TSInterfaceBody _ l | ClassBody _ l | TSTypeLiteral _ l
    | ObjectExpression l => sum_list_with node_size l
    | PropertyDefinition k _ v => node_size k + from_option node_size 1 v
    | Property k _ v => node_size k + node_size v
    | ArrayExpression l => sum_list_with (from_option node_size 1) l
    | CallExpression c l => node_size c + sum_list_with node_size l
    | MemberExpression o p => node_size o + node_size p
    | ChainExpression e | TSAsExpression e | PrivateName e => node_size e
    | OtherNode _ k _ l => from_option node_size 1 k + sum_list_with node_size l
    | _ => 0
    end.

Definition entry_size (e : DependencyQueueEntry) : nat :=
  from_option node_size 1 (node e).

Definition queue_size (q : list DependencyQueueEntry) : nat :=
  sum_list_with entry_size q.

Lemma queue_size_enqueue (f : option Node → DependencyQueueEntry) l :
  (∀ n, node (f n) = n) →
  queue_size (f ∘ Some <$> l) = sum_list_with node_size l.
Proof.
  intros Hf. unfold queue_size. induction l as [|x l IH]; [done|].
  cbn. unfold entry_size at 1. rewrite Hf. cbn. by f_equal.
Qed.

Lemma queue_size_enqueue_opt (f : option Node → DependencyQueueEntry) l :
  (∀ n, node (f n) = n) →
  queue_size (f <$> l) = sum_list_with (from_option node_size 1) l.
Proof.
  intros Hf. unfold queue_size. induction l as [|x l IH]; [done|].
  cbn. unfold entry_size at 1. rewrite Hf. by f_equal.
Qed.

(** Every entry pushed by a turn is a proper part of the entry taken. *)
Lemma visit_decreases cur map : queue_size (visit cur map).1 < entry_size cur.
Proof.
  destruct cur as [p [n|]]; unfold visit, entry_size; cbn -[queue_size]; [|cbn; lia].
  destruct n; cbn -[queue_size];
    rewrite ?queue_size_enqueue, ?queue_size_enqueue_opt by done;
    try (cbn; lia).
  - destruct value; cbn; lia.
  - unfold queue_size. rewrite sum_list_with_app. fold (queue_size).
    rewrite queue_size_enqueue by done. destruct n; cbn; lia.
  - repeat case_match; cbn; lia.
Qed.

(** The [while (q.length)] loop: [q.shift()], one turn, [q.push(...)]. *)
Equations? drain (q : list DependencyQueueEntry) (map : DataDependencyMap)
    : DataDependencyMap by wf (queue_size q) lt :=
  drain [] map := map;
  drain (cur :: q) map := drain (q ++ (visit cur map).1) (visit cur map).2.
Proof.
  unfold queue_size. rewrite sum_list_with_app. cbn.
  pose proof (visit_decreases cur map) as H. unfold queue_size in H. lia.
Qed.

(** The raw mapping: the state of [map] when the queue runs empty. *)
Definition raw_dependencies (root : Node) : DataDependencyMap :=
  drain [ {| parent := None; node := Some root |} ] [].

(** ** Dependency extractor: transitive closure *)

(** [Object.keys(map)]: the own keys that are array indices (the canonical
    decimal form of an integer below [2^32 - 1]) by ascending value, then
    the other keys in creation order. *)
Module ObjectKeys.

Definition digit (a : ascii) : option N :=
  let n := N_of_ascii a in
  if bool_decide (48 ≤ n ≤ 57)%N then Some (n - 48)%N else None.

Fixpoint digits (acc : N) (s : string) : option N :=
  match s with
  | EmptyString => Some acc
  | String a rest =>
      match digit a with
      | Some d => digits (10 * acc + d)%N rest
      | None => None
      end
  end.

Definition array_index (s : string) : option N :=
  match s with
  | EmptyString => None
  | String a rest =>
      if bool_decide (a = "0"%char) && negb (bool_decide (rest = EmptyString))
      then None
      else
        match digits 0 s with
        | Some n => if bool_decide (n < 2 ^ 32 - 1)%N then Some n else None
        | None => None
        end
  end.

Definition index_le (a b : N * string) : Prop := (a.1 ≤ b.1)%N.

#[local] Instance index_le_dec : RelDecision index_le.
Proof. intros a b. unfold index_le. apply _. Defined.

Definition keys {V} (m : Dict.t V) : list string :=
  let own := Dict.own_keys m in
  (merge_sort index_le
     (omap (λ k, (λ n, (n, k)) <$> array_index k) own)).*2
  ++ filter (λ k, array_index k = None) own.

End ObjectKeys.

(** [with_transitives] after the [for (const d of map[k])] loop. *)
Definition with_transitives (map : DataDependencyMap) (deps : list string)
    : list string :=
  foldl (λ acc d, match Dict.get map d with
                  | Some d_deps => acc ++ d_deps
                  | None => acc
                  end) deps deps.

(** The deduplicating [filter]: [seen] records the names already kept. *)
Fixpoint deduplicate (seen : gset string) (l : list string) : list string :=
  match l with
  | [] => []
  | d :: rest =>
      if bool_decide (d ∈ seen) then deduplicate seen rest
      else d :: deduplicate ({[d]} ∪ seen) rest
  end.

(** [Array.prototype.sort()] on strings: ascending code-unit order. *)
Definition Array_sort (l : list string) : list string := merge_sort String.le l.

(** [l.every((v, i) => v === original[i])] *)
Definition every_same (l original : list string) : bool :=
  forallb id (imap (λ i v, bool_decide (original !! i = Some v)) l).

(** The body of [for (const k of keys)]: [None] is the [TypeError] of
    spreading an absent [map[k]]; the flag is [has_change]. *)
Definition close_key (map : DataDependencyMap) (k : string)
    : option (DataDependencyMap * bool) :=
  deps ← Dict.get map k;
  let with_transitives := Array_sort (deduplicate ∅ (with_transitives map deps)) in
  let original := Array_sort deps in
  let map := Dict.set map k original in
  let has_change :=
    negb (bool_decide (length original = length with_transitives))
    || negb (every_same with_transitives original) in
  Some (if has_change then Dict.set map k with_transitives else map, has_change).

(** One pass of the [do ... while] body over all keys, threading [modified]. *)
Fixpoint close_keys (keys : list string) (map : DataDependencyMap)
    (modified : bool) : option (DataDependencyMap * bool) :=
  match keys with
  | [] => Some (map, modified)
  | k :: rest =>
      match close_key map k with
      | Some (map, has_change) =>
          close_keys rest map (if has_change then true else modified)
      | None => None
      end
  end.

Inductive Outcome (A : Type) :=
| Returned (a : A)
| Threw
| StillLooping.
Arguments Returned {A} _.
Arguments Threw {A}.
Arguments StillLooping {A}.

(** [do { ... } while (modified)], cut off after [passes] passes. *)
Fixpoint close_loop (passes : nat) (keys : list string) (map : DataDependencyMap)
    : Outcome DataDependencyMap :=
  match passes with
  | 0 => StillLooping
  | S passes =>
      match close_keys keys map false with
      | None => Threw
      | Some (map, modified) =>
          if modified then close_loop passes keys map else Returned map
      end
  end.

(** [extractDependencies] with at most [passes] closure passes. *)
Definition extractDependencies_within (passes : nat) (root : Node)
    : Outcome DataDependencyMap :=
  let map := raw_dependencies root in
  close_loop passes (ObjectKeys.keys map) map.

(** [extractDependencies]: one pass more than the mapping has keys is always
    enough ([extractDependencies_returns] below). *)
Definition extractDependencies (root : Node) : Outcome DataDependencyMap :=
  extractDependencies_within (S (length (raw_dependencies root))) root.

(** ** The graph of recorded edges *)

(** [d] was recorded as a dependency of [k]. *)
Definition edge (raw : DataDependencyMap) (k d : string) : Prop :=
  ∃ deps, Dict.get raw k = Some deps ∧ d ∈ deps.

(** A walk [k → mid₁ → ... → midₙ → x] along recorded edges. *)
Fixpoint chain (raw : DataDependencyMap) (k : string) (mid : list string)
    (x : string) : Prop :=
  match mid with
  | [] => edge raw k x
  | d :: mid => edge raw k d ∧ chain raw d mid x
  end.

(** [x] is a direct or transitive dependency of [k]. *)
Definition reach (raw : DataDependencyMap) (k x : string) : Prop :=
  ∃ mid, chain raw k mid x.

(** [map[d] ⊆ map[k]] whenever [d] is in [map[k]]. *)
Definition closed (m : DataDependencyMap) : Prop :=
  ∀ k deps d d_deps x,
    Dict.get m k = Some deps → d ∈ deps →
    Dict.get m d = Some d_deps → x ∈ d_deps → x ∈ deps.

(** Every name that occurs in the raw mapping, as a key or as a dependency. *)
Definition names_involved (raw : DataDependencyMap) : list string :=
  remove_dups (Dict.own_keys raw ++ mjoin raw.*2).

(** ** Invariants of the closure loop *)

(** What one turn of [for (const k of keys)] computes for [map[k]]. *)
Definition closed_deps (m : DataDependencyMap) (deps : list string) : list string :=
  Array_sort (deduplicate ∅ (with_transitives m deps)).

(** [closed] at one key. *)
Definition closed_at (m : DataDependencyMap) (k : string) : Prop :=
  ∀ deps d d_deps x,
    Dict.get m k = Some deps → d ∈ deps →
    Dict.get m d = Some d_deps → x ∈ d_deps → x ∈ deps.

(** The two mappings have the same keys and, up to order, the same sets. *)
Definition same_sets (m m' : DataDependencyMap) : Prop :=
  ∀ k, match Dict.get m k, Dict.get m' k with
       | Some deps, Some deps' => deps ≡ₚ deps'
       | None, None => True
       | _, _ => False
       end.

(** [m] has the keys of the raw mapping. *)
Definition same_keys (raw m : DataDependencyMap) : Prop :=
  ∀ k, is_Some (Dict.get m k) ↔ is_Some (Dict.get raw k).

(** [m] holds nothing but what the raw edges reach. *)
Definition sound (raw m : DataDependencyMap) : Prop :=
  ∀ k deps x, Dict.get m k = Some deps → x ∈ deps → reach raw k x.

(** [map[k]] holds what [k] reaches in at most [n] steps. *)
Definition complete_at (raw : DataDependencyMap) (n : nat)
    (m : DataDependencyMap) (k : string) : Prop :=
  ∀ mid x, length mid < n → chain raw k mid x →
    ∃ deps, Dict.get m k = Some deps ∧ x ∈ deps.

(** [map[k]] has no duplicate and is in ascending order. *)
Definition clean_at (m : DataDependencyMap) (k : string) : Prop :=
  ∀ deps, Dict.get m k = Some deps → NoDup deps ∧ Sorted String.le deps.

(** ** Declaration rewriter *)

Definition Outcome_map {A B} (f : A → B) (o : Outcome A) : Outcome B :=
  match o with
  | Returned a => Returned (f a)
  | Threw => Threw
  | StillLooping => StillLooping
  end.

(** The callback [preprocess] hands to [visit].  The comparator built from
    the options, the member-kind test, [C.capture] and the engine's
    [Array.prototype.sort(compareFn)] are declared outside the sources and
    are taken as parameters. *)
Section preprocess.
Context {Options : Type}.
Context (comparator : Options → DataDependencyMap → Node → Node → Order).
Context (memberNodes : Node → bool).
Context (C_capture :
           (Node → bool) → (Node → Node → Order) → Node → Node → Order).
Context (Array_sort_by : (Node → Node → Order) → list Node → list Node).

(** [members.slice().sort(C.capture(memberNodes, comparator(options,
    extractDependencies(node))))] *)
Definition sorted_members (options : Options) (node : Node)
    (members : list Node) : Outcome (list Node) :=
  Outcome_map
    (λ deps,
       Array_sort_by (C_capture memberNodes (comparator options deps)) members)
    (extractDependencies node).

Definition preprocess_rewrite (options : Options) (node : Node) : Outcome Node :=
  match node with
  | TSInterfaceBody base body =>
      Outcome_map (TSInterfaceBody base) (sorted_members options node body)
  | ClassBody base body =>
      Outcome_map (ClassBody base) (sorted_members options node body)
  | TSTypeLiteral base members =>
      Outcome_map (TSTypeLiteral base) (sorted_members options node members)
  | _ => Returned node
  end.
End preprocess.

(** The three kinds [preprocess] rewrites. *)
Definition declaration_body (node : Node) : bool :=
  match node with
  | TSInterfaceBody _ _ | ClassBody _ _ | TSTypeLiteral _ _ => true
  | _ => false
  end.

(** ** The nodes of a tree *)

(** The nodes directly below [n]. *)
Definition children (n : Node) : list Node :=
  match n with
  | TSInterfaceBody _ l | ClassBody _ l | TSTypeLiteral _ l
  | ObjectExpression l => l
  | PropertyDefinition k _ v => k :: option_list v
  | Property k _ v => [k; v]
  | ArrayExpression l => omap id l
  | CallExpression c l => c :: l
  | MemberExpression o p => [o; p]
  | ChainExpression e | TSAsExpression e | PrivateName e => [e]
  | OtherNode _ k _ l => option_list k ++ l
  | _ => []
  end.

(** [n] and every node below it. *)
Fixpoint nodes_of (n : Node) : list Node :=
  n :: match n with
       | TSInterfaceBody _ l | ClassBody _ l | TSTypeLiteral _ l
       | ObjectExpression l => l ≫= nodes_of
       | PropertyDefinition k _ v => nodes_of k ++ from_option nodes_of [] v
       | Property k _ v => nodes_of k ++ nodes_of v
       | ArrayExpression l => l ≫= from_option nodes_of []
       | CallExpression c l => nodes_of c ++ (l ≫= nodes_of)
       | MemberExpression o p => nodes_of o ++ nodes_of p
       | ChainExpression e | TSAsExpression e | PrivateName e => nodes_of e
       | OtherNode _ k _ l => from_option nodes_of [] k ++ (l ≫= nodes_of)
       | _ => []
       end.

(** The name [deps.push] receives for the property name [dep_name]. *)
Definition pushed_name (dep_name : string) : string :=
  if JS.endsWith dep_name "?" then JS.slice_0_m1 dep_name else dep_name.

(** The names read as [this.name] somewhere in the tree, as they are
    pushed. *)
Definition this_accesses (root : Node) : list string :=
  omap (λ n, match n with
             | MemberExpression ThisExpression (Identifier dep_name) =>
                 Some (pushed_name dep_name)
             | _ => None
             end) (nodes_of root).

(** The names [extractName] resolves for the nodes of the tree. *)
Definition names_of (root : Node) : list string :=
  omap extractName (nodes_of root).

(** The kinds the [switch] of [extractDependencies] has a case for. *)
Definition has_case (n : Node) : bool :=
  match n with
  | TSInterfaceBody _ _ | ClassBody _ _ | TSTypeLiteral _ _
  | ObjectExpression _ | PropertyDefinition _ _ _ | Property _ _ _
  | ArrayExpression _ | CallExpression _ _ | MemberExpression _ _
  | ChainExpression _ | TSAsExpression _ => true
  | _ => false
  end.

(** The entries on which a turn of the loop does something: a node of a
    kind the [switch] has a case for. *)
Definition live (e : DependencyQueueEntry) : bool :=
  from_option has_case false (node e).

(** ** Angular [inject] fields *)

(** [$.name] where it is a string.  Of the kinds of the typings only
    [Identifier], [PrivateIdentifier] and [JSXIdentifier] have one, and the
    last is never the callee of a call. *)
Definition name_of (n : Node) : option string :=
  match n with
  | Identifier name | PrivateIdentifier name => Some name
  | _ => None
  end.

Definition isAngularInject (node : Node) : bool :=
  match node with
  | PropertyDefinition _ _ (Some (CallExpression callee _)) =>
      bool_decide (name_of callee = Some "inject")
  | _ => false
  end.

(** ** The same functions over a store of arrays

    To state that the input is not mutated the arrays get an identity:
    [Store.Node] is [Node] with every array field replaced by a reference
    into a store, and each array operation of the source reads, allocates
    or overwrites a cell of that store.  Objects that are only ever read or
    created ([cur], the nodes) stay values; the dictionary [map] is a local
    value whose properties hold references to arrays of names. *)
Module Store.

Abbreviation ref := nat.

Inductive Node :=
| TSInterfaceBody (base : BaseNode) (body : ref)
| ClassBody (base : BaseNode) (body : ref)
| TSTypeLiteral (base : BaseNode) (members : ref)
| ObjectExpression (properties : ref)
| PropertyDefinition (key : Node) (computed : bool) (value : option Node)
| Property (key : Node) (computed : bool) (value : Node)
| ArrayExpression (elements : ref)
| CallExpression (callee : Node) (arguments : ref)
| MemberExpression (object property : Node)
| ChainExpression (expression : Node)
| TSAsExpression (expression : Node)
| ThisExpression
| Identifier (name : string)
| PrivateIdentifier (name : string)
| Literal (value : LiteralValue)
| PrivateName (id : Node)
| StringLiteral (value : string)
| OtherNode (type : string) (key : option Node) (computed : option bool)
    (children : ref).

Record DependencyQueueEntry := { parent : option string; node : option Node }.

(** An array: of nodes (with [null] for a hole), of names, or of queue
    entries. *)
Inductive Array :=
| Nodes (elems : list (option Node))
| Names (elems : list string)
| Entries (elems : list DependencyQueueEntry).

Abbreviation store := (list Array).

(** Computations on the store; [None] is a fault (a dangling reference, an
    array of the wrong element type, a cut-off loop). *)
Definition M (A : Type) : Type := store → option (A * store).

Definition ret {A} (a : A) : M A := λ s, Some (a, s).
Definition bind {A B} (c : M A) (f : A → M B) : M B :=
  λ s, match c s with
       | Some (a, s') => f a s'
       | None => None
       end.
Definition fault {A} : M A := λ _, None.

#[global] Instance M_ret : MRet M := @ret.
#[global] Instance M_bind : MBind M := λ A B f c, bind c f.

(** A fresh array. *)
Definition alloc (a : Array) : M ref := λ s, Some (length s, s ++ [a]).

(** Overwrite an array in place. *)
Definition write (r : ref) (a : Array) : M unit :=
  λ s, if bool_decide (r < length s) then Some (tt, <[r := a]> s) else None.

Definition read_nodes (r : ref) : M (list (option Node)) :=
  λ s, match s !! r with Some (Nodes l) => Some (l, s) | _ => None end.
Definition read_names (r : ref) : M (list string) :=
  λ s, match s !! r with Some (Names l) => Some (l, s) | _ => None end.
Definition read_entries (r : ref) : M (list DependencyQueueEntry) :=
  λ s, match s !! r with Some (Entries l) => Some (l, s) | _ => None end.

Definition key_of (node : Node) : option Node :=
  match node with
  | PropertyDefinition key _ _ | Property key _ _ => Some key
  | OtherNode _ key _ _ => key
  | _ => None
  end.

Definition computed_true (node : Node) : bool :=
  match node with
  | PropertyDefinition _ computed _ | Property _ computed _ => computed
  | OtherNode _ _ (Some computed) _ => computed
  | _ => false
  end.

Definition extractName (node : Node) : option string :=
  match key_of node with
  | Some key =>
      match key with
      | Identifier name | PrivateIdentifier name =>
          if computed_true node then None else Some name
      | Literal value =>
          match value with
          | LString s => Some s
          | _ => None
          end
      | PrivateName id =>
          match id with
          | Identifier name => Some name
          | _ => None
          end
      | StringLiteral value => Some value
      | _ => None
      end
  | None => None
  end.

Definition queueEntryMapper (cur : DependencyQueueEntry) (cur_node : Node)
    (n : option Node) : DependencyQueueEntry :=
  {| parent := JS.or_else (parent cur) (extractName cur_node); node := n |}.

(** [q.push(...el)] *)
Definition push_all (q : ref) (el : list DependencyQueueEntry) : M unit :=
  old ← read_entries q; write q (Entries (old ++ el)).

(** [const el = children.map(queueEntryMapper(cur)); q.push(...el);] *)
Definition push_mapped (q : ref) (cur : DependencyQueueEntry)
    (cur_node : Node) (children : ref) : M unit :=
  nodes ← read_nodes children;
  el ← alloc (Entries (queueEntryMapper cur cur_node <$> nodes));
  entries ← read_entries el;
  push_all q entries.

(** The dictionary [map]: names to arrays of names. *)
Definition Map : Type := Dict.t ref.

Definition record_dependency (map : Map) (parent dep_name : string) : M Map :=
  '(deps, map) ←
    match Dict.get map parent with
    | Some deps => ret (deps, map)
    | None => deps ← alloc (Names []); ret (deps, Dict.set map parent deps)
    end;
  let dep_name :=
    if JS.endsWith dep_name "?" then JS.slice_0_m1 dep_name else dep_name in
  old ← read_names deps;
  write deps (Names (old ++ [dep_name])) ;;
  ret map.

(** One turn of the [while] loop on the entry taken from the queue [q]. *)
Definition visit (q : ref) (cur : DependencyQueueEntry) (map : Map) : M Map :=
  match node cur with
  | None => ret map
  | Some cur_node =>
      let enqueue := queueEntryMapper cur cur_node in
      match cur_node with
      | TSInterfaceBody _ body | ClassBody _ body =>
          push_mapped q cur cur_node body ;; ret map
      | TSTypeLiteral _ members =>
          push_mapped q cur cur_node members ;; ret map
      | ObjectExpression properties =>
          push_mapped q cur cur_node properties ;; ret map
      | PropertyDefinition _ _ value =>
          match value with
          | Some v => push_all q [enqueue (Some v)] ;; ret map
          | None => ret map
          end
      | Property _ _ value => push_all q [enqueue (Some value)] ;; ret map
      | ArrayExpression elements =>
          push_mapped q cur cur_node elements ;; ret map
      | CallExpression callee arguments =>
          match callee with
          | MemberExpression object _ => push_all q [enqueue (Some object)]
          | _ => ret tt
          end ;;
          push_mapped q cur cur_node arguments ;; ret map
      | MemberExpression object property =>
          match property with
          | Identifier dep_name =>
              match object with
              | ThisExpression =>
                  match parent cur with
                  | Some p =>
                      if JS.truthy (Some p)
                      then record_dependency map p dep_name
                      else ret map
                  | None => ret map
                  end
              | MemberExpression _ _ =>
                  push_all q
                    [ {| parent :=
                           JS.or_else (parent cur) (extractName cur_node);
                         node := Some object |} ] ;;
                  ret map
              | _ => ret map
              end
          | _ => ret map
          end
      | ChainExpression expression | TSAsExpression expression =>
          push_all q [enqueue (Some expression)] ;; ret map
      | _ => ret map
      end
  end.

(** [while (q.length) { const cur = q.shift(); ... }], cut off after
    [turns] turns. *)
Fixpoint drain (turns : nat) (q : ref) (map : Map) : M Map :=
  match turns with
  | 0 => fault
  | S turns =>
      entries ← read_entries q;
      match entries with
      | [] => ret map
      | cur :: rest =>
          write q (Entries rest) ;;
          map ← visit q cur map;
          drain turns q map
      end
  end.

(** The [for (const d of map[k])] loop: each [concat] is a new array. *)
Fixpoint concat_transitives (map : Map) (with_transitives : ref)
    (deps : list string) : M ref :=
  match deps with
  | [] => ret with_transitives
  | d :: deps =>
      with_transitives ←
        match Dict.get map d with
        | Some d_deps =>
            old ← read_names with_transitives;
            more ← read_names d_deps;
            alloc (Names (old ++ more))
        | None => ret with_transitives
        end;
      concat_transitives map with_transitives deps
  end.

(** [l.sort()] in place. *)
Definition sort_names (r : ref) : M unit :=
  l ← read_names r; write r (Names (Array_sort l)).

Definition close_key (map : Map) (k : string) : M (Map * bool) :=
  match Dict.get map k with
  | None => fault
  | Some map_k =>
      deps ← read_names map_k;
      with_transitives ← alloc (Names deps);
      with_transitives ← concat_transitives map with_transitives deps;
      all ← read_names with_transitives;
      with_transitives ← alloc (Names (deduplicate ∅ all));
      sort_names with_transitives ;;
      sort_names map_k ;;
      original ← read_names map_k;
      new ← read_names with_transitives;
      let has_change :=
        negb (bool_decide (length original = length new))
        || negb (every_same new original) in
      if has_change
      then ret (Dict.set map k with_transitives, true)
      else ret (map, false)
  end.

Fixpoint close_keys (keys : list string) (map : Map) (modified : bool)
    : M (Map * bool) :=
  match keys with
  | [] => ret (map, modified)
  | k :: rest =>
      '(map, has_change) ← close_key map k;
      close_keys rest map (if has_change : bool then true else modified)
  end.

Fixpoint close_loop (passes : nat) (keys : list string) (map : Map) : M Map :=
  match passes with
  | 0 => fault
  | S passes =>
      '(map, modified) ← close_keys keys map false;
      if modified : bool then close_loop passes keys map else ret map
  end.

Definition extractDependencies (turns passes : nat) (root : Node) : M Map :=
  q ← alloc (Entries [ {| parent := None; node := Some root |} ]);
  map ← drain turns q [];
  close_loop passes (ObjectKeys.keys map) map.

(** The mapping as the caller reads it: each property with the content of
    its array. *)
Definition contents (s : store) (map : Map) : DataDependencyMap :=
  omap (λ '(k, r), match s !! r with
                   | Some (Names l) => Some (k, l)
                   | _ => None
                   end) map.

Section stored_preprocess.
Context {Options : Type}.
Context (comparator :
           Options → DataDependencyMap → option Node → option Node → Order).
Context (memberNodes : option Node → bool).
Context (C_capture :
           (option Node → bool) → (option Node → option Node → Order) →
           option Node → option Node → Order).
Context (Array_sort_by :
           (option Node → option Node → Order) →
           list (option Node) → list (option Node)).

(** [members.slice().sort(C.capture(memberNodes, comparator(options,
    extractDependencies(node))))]: the copy is made first, the
    comparator is built next, the copy is sorted in place. *)
Definition sorted_members (turns passes : nat) (options : Options)
    (node : Node) (members : ref) : M ref :=
  elems ← read_nodes members;
  copy ← alloc (Nodes elems);
  map ← extractDependencies turns passes node;
  deps ← (λ s, Some (contents s map, s));
  elems ← read_nodes copy;
  write copy
    (Nodes (Array_sort_by
              (C_capture memberNodes (comparator options deps)) elems)) ;;
  ret copy.

Definition preprocess_rewrite (turns passes : nat) (options : Options)
    (node : Node) : M Node :=
  match node with
  | TSInterfaceBody base body =>
      body ← sorted_members turns passes options node body;
      ret (TSInterfaceBody base body)
  | ClassBody base body =>
      body ← sorted_members turns passes options node body;
      ret (ClassBody base body)
  | TSTypeLiteral base members =>
      members ← sorted_members turns passes options node members;
      ret (TSTypeLiteral base members)
  | _ => ret node
  end.
End stored_preprocess.

(** [s'] keeps every array of [s] as it was. *)
Definition preserves (s s' : store) : Prop :=
  ∀ r a, s !! r = Some a → s' !! r = Some a.

(** Started from a store that keeps [s0], [c] ends in a store that keeps
    [s0], with a result satisfying [Q]. *)
Definition frames (s0 : store) {A} (c : M A) (Q : A → Prop) : Prop :=
  ∀ s a s', preserves s0 s → c s = Some (a, s') → preserves s0 s' ∧ Q a.

(** A reference that [s0] does not hold. *)
Definition fresh (s0 : store) (r : ref) : Prop := length s0 ≤ r.

(** Every array of the dictionary was allocated after [s0]. *)
Definition fresh_map (s0 : store) (map : Map) : Prop :=
  ∀ k r, Dict.get map k = Some r → fresh s0 r.

End Store.

(** ** Trees laid out in a store *)

(** [represents s t n]: the store node [n], with the arrays of [s] read in
    place of its references, is the tree [t]. *)
Inductive represents (s : list Store.Array) : Node → Store.Node → Prop :=
| rep_TSInterfaceBody base l r hl :
    s !! r = Some (Store.Nodes hl) → represents_each s (Some <$> l) hl →
    represents s (TSInterfaceBody base l) (Store.TSInterfaceBody base r)
| rep_ClassBody base l r hl :
    s !! r = Some (Store.Nodes hl) → represents_each s (Some <$> l) hl →
    represents s (ClassBody base l) (Store.ClassBody base r)
| rep_TSTypeLiteral base l r hl :
    s !! r = Some (Store.Nodes hl) → represents_each s (Some <$> l) hl →
    represents s (TSTypeLiteral base l) (Store.TSTypeLiteral base r)
| rep_ObjectExpression l r hl :
    s !! r = Some (Store.Nodes hl) → represents_each s (Some <$> l) hl →
    represents s (ObjectExpression l) (Store.ObjectExpression r)
| rep_PropertyDefinition k hk c v hv :
    represents s k hk → represents_opt s v hv →
    represents s (PropertyDefinition k c v) (Store.PropertyDefinition hk c hv)
| rep_Property k hk c v hv :
    represents s k hk → represents s v hv →
    represents s (Property k c v) (Store.Property hk c hv)
| rep_ArrayExpression l r hl :
    s !! r = Some (Store.Nodes hl) → represents_each s l hl →
    represents s (ArrayExpression l) (Store.ArrayExpression r)
| rep_CallExpression c hc l r hl :
    represents s c hc →
    s !! r = Some (Store.Nodes hl) → represents_each s (Some <$> l) hl →
    represents s (CallExpression c l) (Store.CallExpression hc r)
| rep_MemberExpression o ho p hp :
    represents s o ho → represents s p hp →
    represents s (MemberExpression o p) (Store.MemberExpression ho hp)
| rep_ChainExpression e he :
    represents s e he →
    represents s (ChainExpression e) (Store.ChainExpression he)
| rep_TSAsExpression e he :
    represents s e he →
    represents s (TSAsExpression e) (Store.TSAsExpression he)
| rep_ThisExpression : represents s ThisExpression Store.ThisExpression
| rep_Identifier name : represents s (Identifier name) (Store.Identifier name)
| rep_PrivateIdentifier name :
    represents s (PrivateIdentifier name) (Store.PrivateIdentifier name)
| rep_Literal value : represents s (Literal value) (Store.Literal value)
| rep_PrivateName e he :
    represents s e he → represents s (PrivateName e) (Store.PrivateName he)
| rep_StringLiteral value :
    represents s (StringLiteral value) (Store.StringLiteral value)
| rep_OtherNode type k hk c l r hl :
    represents_opt s k hk →
    s !! r = Some (Store.Nodes hl) → represents_each s (Some <$> l) hl →
    represents s (OtherNode type k c l) (Store.OtherNode type hk c r)
with represents_opt (s : list Store.Array)
  : option Node → option Store.Node → Prop :=
| rep_None : represents_opt s None None
| rep_Some t n : represents s t n → represents_opt s (Some t) (Some n)
with represents_each (s : list Store.Array)
  : list (option Node) → list (option Store.Node) → Prop :=
| rep_nil : represents_each s [] []
| rep_cons t n l hl :
    represents_opt s t n → represents_each s l hl →
    represents_each s (t :: l) (n :: hl).

Scheme represents_mut := Minimality for represents Sort Prop
  with represents_opt_mut := Minimality for represents_opt Sort Prop
  with represents_each_mut := Minimality for represents_each Sort Prop.

Combined Scheme represents_mutind
  from represents_mut, represents_opt_mut, represents_each_mut.

(** [s'] keeps every array of nodes of [s] as it was. *)
Definition keeps_nodes (s s' : list Store.Array) : Prop :=
  ∀ r l, s !! r = Some (Store.Nodes l) → s' !! r = Some (Store.Nodes l).

(** A queue entry of the store stands for a queue entry of the pure model. *)
Definition represents_entry (s : list Store.Array)
    (e : DependencyQueueEntry) (he : Store.DependencyQueueEntry) : Prop :=
  parent e = Store.parent he ∧ represents_opt s (node e) (Store.node he).

(** The dictionary of the store stands for [m]: same keys in the same
    order, each array holding the names of the entry, no array shared. *)
Definition represents_map (s : list Store.Array)
    (m : DataDependencyMap) (hm : Store.Map) : Prop :=
  Forall2 (λ e he, e.1 = he.1 ∧ s !! he.2 = Some (Store.Names e.2)) m hm
  ∧ NoDup hm.*2.

(** The queue [q] and the dictionary [hm] of the store stand for the queue
    [pq] and the mapping [m] of the pure loop. *)
Definition represents_state (s : list Store.Array)
    (pq : list DependencyQueueEntry) (m : DataDependencyMap)
    (q : Store.ref) (hm : Store.Map) : Prop :=
  (∃ hq, s !! q = Some (Store.Entries hq) ∧ Forall2 (represents_entry s) pq hq)
  ∧ represents_map s m hm
  ∧ q ∉ hm.*2.

(** ** Sample declarations *)

Module Sample.

Definition base : BaseNode :=
  {| range := (0, 0);
     loc := {| loc_start := {| line := 1; column := 0 |};
               loc_end := {| line := 1; column := 0 |} |} |}.

(** [this.p] *)
Definition this_ (p : string) : Node :=
  MemberExpression ThisExpression (Identifier p).

(** [k = v;] *)
Definition field (k : string) (v : Node) : Node :=
  PropertyDefinition (Identifier k) false (Some v).

(** [k() { return e }] *)
Definition method (k : string) (e : Node) : Node :=
  OtherNode "MethodDefinition" (Some (Identifier k)) (Some false)
    [OtherNode "FunctionExpression" None None
       [OtherNode "BlockStatement" None None
          [OtherNode "ReturnStatement" None None [e]]]].

Definition one : Node := Literal (LNumber "1").

(** [{ c() { return this.a }  a = 1;  b = this.c; }] *)
Definition method_chain : Node :=
  ClassBody base [method "c" (this_ "a"); field "a" one; field "b" (this_ "c")].

(** [{ c = this.a;  a = 1;  b = this.c; }] *)
Definition field_chain : Node :=
  ClassBody base [field "c" (this_ "a"); field "a" one; field "b" (this_ "c")].

(** [{ a = this.a; }] *)
Definition self_reference : Node :=
  ClassBody base [field "a" (this_ "a")].

(** [{ a = [this.a, this.a]; }] *)
Definition twice : Node :=
  ClassBody base
    [field "a" (ArrayExpression [Some (this_ "a"); Some (this_ "a")])].

(** The member list of [field_chain] as an array in a store, and the class
    body that refers to it. *)
Definition stored_this (p : string) : Store.Node :=
  Store.MemberExpression Store.ThisExpression (Store.Identifier p).

Definition stored_field (k : string) (v : Store.Node) : Store.Node :=
  Store.PropertyDefinition (Store.Identifier k) false (Some v).

Definition stored_members : list Store.Array :=
  [Store.Nodes
     [Some (stored_field "c" (stored_this "a"));
      Some (stored_field "a" (Store.Literal (LNumber "1")));
      Some (stored_field "b" (stored_this "c"))]].

Definition stored_field_chain : Store.Node := Store.ClassBody base 0.

End Sample.

(** * Properties *)

(** ** Name resolver *)

(** C7. A member-like node (a node with a key) whose key is an identifier
    or a private identifier resolves to nothing when the member is computed
    and to the identifier's name otherwise; one whose key is a literal
    resolves to the literal's value when that value is a string and to
    nothing for every other literal. *)
Theorem extractName_identifier_or_literal (member key : Node) :
  key_of member = Some key →
  (∀ name, key = Identifier name ∨ key = PrivateIdentifier name →
     extractName member = if computed_true member then None else Some name)
  ∧ (∀ value, key = Literal value →
       extractName member =
         match value with LString s => Some s | _ => None end).
Proof.
  intros Hkey. unfold extractName. rewrite Hkey. split.
  - by intros name [-> | ->].
  - by intros value ->.
Qed.

Lemma extractName_identifier_or_literal_witness :
  extractName (PropertyDefinition (Identifier "a") false None) = Some "a"
  ∧ extractName (PropertyDefinition (PrivateIdentifier "a") true None) = None
  ∧ extractName (Property (Literal (LString "a")) true ThisExpression) = Some "a"
  ∧ extractName (Property (Literal (LNumber "1")) false ThisExpression) = None.
Proof.
  pose proof (extractName_identifier_or_literal
                (PropertyDefinition (Identifier "a") false None) _ eq_refl) as [H1 _].
  pose proof (extractName_identifier_or_literal
                (PropertyDefinition (PrivateIdentifier "a") true None) _ eq_refl) as [H2 _].
  pose proof (extractName_identifier_or_literal
                (Property (Literal (LString "a")) true ThisExpression) _ eq_refl) as [_ H3].
  pose proof (extractName_identifier_or_literal
                (Property (Literal (LNumber "1")) false ThisExpression) _ eq_refl) as [_ H4].
  split; [|split; [|split]].
  - apply (H1 "a"). by left.
  - apply (H2 "a"). by right.
  - apply (H3 _ eq_refl).
  - apply (H4 _ eq_refl).
Defined.

(** ** Ordering comparator *)

Lemma indexOf_from_found i l x : x ∈ l → (i ≤ JS.indexOf_from i l x)%Z.
Proof.
  intros Hin. revert i. induction Hin as [x l|x y l _ IH]; intros i; cbn.
  - rewrite bool_decide_eq_true_2 by done. lia.
  - case_bool_decide; [lia|]. specialize (IH (i + 1)%Z). lia.
Qed.

Lemma indexOf_from_missing i l x : x ∉ l → JS.indexOf_from i l x = (-1)%Z.
Proof.
  revert i. induction l as [|y l IH]; intros i Hnin; cbn; [done|].
  apply not_elem_of_cons in Hnin as [Hne Hnin].
  rewrite bool_decide_eq_false_2 by done. by apply IH.
Qed.

(** C4. When the name of [b] occurs in the dependency set resolved for [a],
    the comparator answers [Greater], whatever the sizes of the two sets. *)
Theorem dataDependency_dependent_is_greater
    (dependencyMap : DataDependencyMap) (a b : Node) (name_b : string) :
  extractName b = Some name_b →
  name_b ∈ dependencies (resolve dependencyMap a) →
  dataDependency dependencyMap a b = Greater.
Proof.
  intros Hb Hin. unfold dataDependency, C_by, compare_resolved.
  set (ra := resolve dependencyMap a) in *.
  assert (name (resolve dependencyMap b) = Some name_b) as -> by done.
  destruct (dependencies ra) as [|d deps] eqn:Hdeps; [by apply elem_of_nil in Hin|].
  rewrite (bool_decide_eq_false_2 (length (d :: deps) = 0)) by done. cbn [andb].
  pose proof (indexOf_from_found 0 _ _ Hin). unfold JS.indexOf.
  rewrite bool_decide_eq_false_2 by lia. done.
Qed.

Lemma dataDependency_dependent_is_greater_witness :
  dataDependency [("a", ["x"; "y"; "b"]); ("b", ["x"])]
    (PropertyDefinition (Identifier "a") false None)
    (PropertyDefinition (Identifier "b") false None) = Greater.
Proof.
  apply (dataDependency_dependent_is_greater _ _ _ "b"); [reflexivity|].
  vm_compute. set_solver.
Defined.

(** C1, as the code has it.  Two members with non-empty dependency sets of
    equal size, neither naming the other, compare as [Less]: the test
    [a.dependencies.length <= b.dependencies.length] is met before the final
    [return Order.Equal] can be reached. *)
Theorem dataDependency_equal_sizes_is_less
    (dependencyMap : DataDependencyMap) (a b : Node) :
  let ra := resolve dependencyMap a in
  let rb := resolve dependencyMap b in
  dependencies ra ≠ [] →
  dependencies rb ≠ [] →
  length (dependencies ra) = length (dependencies rb) →
  (∀ n, name rb = Some n → n ∉ dependencies ra) →
  (∀ n, name ra = Some n → n ∉ dependencies rb) →
  dataDependency dependencyMap a b = Less
  ∧ dataDependency dependencyMap a b ≠ Equal.
Proof.
  intros ra rb Ha Hb Hlen Hab Hba.
  assert (dataDependency dependencyMap a b = Less) as ->; [|done].
  unfold dataDependency, C_by, compare_resolved. fold ra rb.
  destruct (dependencies ra) as [|da la] eqn:Hda; [done|].
  rewrite (bool_decide_eq_false_2 (length (da :: la) = 0)) by done. cbn [andb].
  assert (JS.indexOf (da :: la) (name rb) = (-1)%Z) as ->.
  { destruct (name rb) as [n|] eqn:Hn; [|done].
    apply indexOf_from_missing, Hab. done. }
  assert (JS.indexOf (dependencies rb) (name ra) = (-1)%Z) as ->.
  { destruct (name ra) as [n|] eqn:Hn; [|done].
    apply indexOf_from_missing, Hba. done. }
  rewrite !bool_decide_eq_true_2 by (done || lia). done.
Qed.

Lemma dataDependency_equal_sizes_is_less_witness :
  dataDependency [("a", ["x"]); ("b", ["y"])]
    (PropertyDefinition (Identifier "a") false None)
    (PropertyDefinition (Identifier "b") false None) = Less
  ∧ dataDependency [("a", ["x"]); ("b", ["y"])]
      (PropertyDefinition (Identifier "a") false None)
      (PropertyDefinition (Identifier "b") false None) ≠ Equal.
Proof.
  apply (dataDependency_equal_sizes_is_less
           [("a", ["x"]); ("b", ["y"])]
           (PropertyDefinition (Identifier "a") false None)
           (PropertyDefinition (Identifier "b") false None));
    vm_compute; try done.
  all: intros n [=]; subst; set_solver.
Defined.

(** ** Closure: the building blocks *)

Section dict.
Context {V : Type}.
Implicit Types (m : Dict.t V) (k : string) (v : V).

Lemma get_set_eq m k v : Dict.get (Dict.set m k v) k = Some v.
Proof.
  induction m as [|[k' v'] m IH]; cbn.
  - by rewrite bool_decide_eq_true_2.
  - case_bool_decide as Hk; cbn.
    + by rewrite bool_decide_eq_true_2.
    + by rewrite bool_decide_eq_false_2.
Qed.

Lemma get_set_ne m k k' v : k ≠ k' → Dict.get (Dict.set m k v) k' = Dict.get m k'.
Proof.
  intros Hne. induction m as [|[k0 v0] m IH]; cbn.
  - by rewrite bool_decide_eq_false_2.
  - case_bool_decide as Hk; cbn.
    + subst k0. by rewrite !bool_decide_eq_false_2.
    + by rewrite IH.
Qed.

Lemma get_is_Some m k : is_Some (Dict.get m k) ↔ k ∈ Dict.own_keys m.
Proof.
  unfold Dict.own_keys. induction m as [|[k' v'] m IH]; cbn.
  - split; [by intros [? ?]|by intros ?%elem_of_nil].
  - rewrite elem_of_cons. case_bool_decide; subst; [naive_solver|].
    rewrite IH. naive_solver.
Qed.
End dict.

Lemma object_keys_elem_of {V} (m : Dict.t V) k :
  k ∈ ObjectKeys.keys m ↔ k ∈ Dict.own_keys m.
Proof.
  unfold ObjectKeys.keys. rewrite elem_of_app, list_elem_of_filter.
  rewrite list_elem_of_fmap. split.
  - intros [([n k'] & -> & Hin)|[_ ?]]; [|done].
    rewrite merge_sort_Permutation in Hin.
    apply list_elem_of_omap in Hin as (k0 & Hk0 & Heq).
    destruct (ObjectKeys.array_index k0); by simplify_eq/=.
  - intros Hin. destruct (ObjectKeys.array_index k) as [n|] eqn:Hidx; [left|by right].
    exists (n, k). split; [done|]. rewrite merge_sort_Permutation.
    apply list_elem_of_omap. exists k. by rewrite Hidx.
Qed.

Section sets.
Implicit Types (l : list string) (seen : gset string).

Lemma elem_of_deduplicate seen l x :
  x ∈ deduplicate seen l ↔ x ∈ l ∧ x ∉ seen.
Proof.
  revert seen. induction l as [|d l IH]; intros seen; cbn.
  - rewrite elem_of_nil. naive_solver.
  - case_bool_decide as Hd.
    + rewrite IH, elem_of_cons. naive_solver.
    + rewrite !elem_of_cons, IH, not_elem_of_union, elem_of_singleton.
      destruct (decide (x = d)); naive_solver.
Qed.

Lemma NoDup_deduplicate seen l : NoDup (deduplicate seen l).
Proof.
  revert seen. induction l as [|d l IH]; intros seen; cbn; [constructor|].
  case_bool_decide; [done|]. constructor; [|done].
  rewrite elem_of_deduplicate. set_solver.
Qed.

Lemma deduplicate_covered seen l :
  (∀ x, x ∈ l → x ∈ seen) → deduplicate seen l = [].
Proof.
  induction l as [|d l IH]; intros Hin; cbn; [done|].
  rewrite bool_decide_eq_true_2 by set_solver. apply IH. set_solver.
Qed.

Lemma deduplicate_app seen l l' :
  deduplicate seen (l ++ l')
  = deduplicate seen l ++ deduplicate (list_to_set l ∪ seen) l'.
Proof.
  revert seen. induction l as [|d l IH]; intros seen; cbn.
  - f_equal. set_solver.
  - case_bool_decide as Hd; rewrite IH; cbn.
    + f_equal. f_equal. set_solver.
    + f_equal. f_equal. f_equal. set_solver.
Qed.

Lemma deduplicate_fresh seen l :
  NoDup l → (∀ x, x ∈ l → x ∉ seen) → deduplicate seen l = l.
Proof.
  revert seen. induction l as [|d l IH]; intros seen Hnd Hfresh; cbn; [done|].
  apply NoDup_cons in Hnd as [Hd Hnd].
  rewrite bool_decide_eq_false_2 by set_solver. f_equal. apply IH; set_solver.
Qed.

Lemma deduplicate_app_covered l l' :
  NoDup l → (∀ x, x ∈ l' → x ∈ l) → deduplicate ∅ (l ++ l') = l.
Proof.
  intros Hnd Hcov. rewrite deduplicate_app, deduplicate_fresh by set_solver.
  rewrite deduplicate_covered; [by rewrite app_nil_r|set_solver].
Qed.

Lemma Array_sort_Permutation l : Array_sort l ≡ₚ l.
Proof. apply merge_sort_Permutation. Qed.

Lemma Array_sort_Sorted l : Sorted String.le (Array_sort l).
Proof. apply (Sorted_merge_sort String.le). Qed.

Lemma Array_sort_sorted l : Sorted String.le l → Array_sort l = l.
Proof.
  intros Hl. apply (Sorted_unique String.le); [apply Array_sort_Sorted|done|].
  apply Array_sort_Permutation.
Qed.

Lemma elem_of_Array_sort l x : x ∈ Array_sort l ↔ x ∈ l.
Proof. by rewrite Array_sort_Permutation. Qed.

Lemma NoDup_Array_sort l : NoDup (Array_sort l) ↔ NoDup l.
Proof. by rewrite Array_sort_Permutation. Qed.

Lemma every_same_spec l original :
  length original = length l → every_same l original = true → original = l.
Proof.
  unfold every_same. revert original. induction l as [|x l IH];
    intros [|y original] Hlen; try done; cbn.
  rewrite andb_true_iff, bool_decide_eq_true. intros [[= ->] Hall].
  f_equal. apply IH; [by simplify_eq/=|]. done.
Qed.

Lemma every_same_refl l : every_same l l = true.
Proof.
  unfold every_same. induction l as [|x l IH]; [done|]. cbn.
  rewrite bool_decide_eq_true_2 by done. done.
Qed.

Lemma with_transitives_unfold (m : DataDependencyMap) l :
  with_transitives m l = l ++ mjoin (omap (Dict.get m) l).
Proof.
  unfold with_transitives. generalize l at 1 3 as acc.
  induction l as [|d l IH]; intros acc; cbn; [by rewrite app_nil_r|].
  rewrite IH. destruct (Dict.get m d); cbn; [|done]. by rewrite <-(assoc_L (++)).
Qed.

Lemma elem_of_with_transitives (m : DataDependencyMap) l x :
  x ∈ with_transitives m l ↔
  x ∈ l ∨ ∃ d d_deps, d ∈ l ∧ Dict.get m d = Some d_deps ∧ x ∈ d_deps.
Proof.
  rewrite with_transitives_unfold, elem_of_app, list_elem_of_join.
  setoid_rewrite list_elem_of_omap. naive_solver.
Qed.
End sets.

Lemma elem_of_closed_deps m deps x :
  x ∈ closed_deps m deps ↔
  x ∈ deps ∨ ∃ d d_deps, d ∈ deps ∧ Dict.get m d = Some d_deps ∧ x ∈ d_deps.
Proof.
  unfold closed_deps.
  rewrite elem_of_Array_sort, elem_of_deduplicate, elem_of_with_transitives.
  set_solver.
Qed.

Lemma closed_deps_clean m deps :
  NoDup (closed_deps m deps) ∧ Sorted String.le (closed_deps m deps).
Proof.
  split; [|apply Array_sort_Sorted].
  apply NoDup_Array_sort, NoDup_deduplicate.
Qed.

Lemma set_get_id {V} (m : Dict.t V) k v :
  Dict.get m k = Some v → Dict.set m k v = m.
Proof.
  induction m as [|[k' v'] m IH]; cbn; [done|].
  case_bool_decide; [by intros [= ->]|]. intros ?. f_equal. by apply IH.
Qed.

Lemma close_key_spec m k m' b :
  close_key m k = Some (m', b) →
  ∃ deps, Dict.get m k = Some deps
    ∧ Dict.get m' k = Some (closed_deps m deps)
    ∧ (∀ k', k ≠ k' → Dict.get m' k' = Dict.get m k')
    ∧ (b = false ↔ Array_sort deps = closed_deps m deps)
    ∧ (b = false → m' = Dict.set m k (Array_sort deps)).
Proof.
  unfold close_key. destruct (Dict.get m k) as [deps|] eqn:Hget; [|done].
  cbn. fold (closed_deps m deps). intros [= <- <-]. exists deps.
  split; [done|].
  destruct (bool_decide (length (Array_sort deps) = length (closed_deps m deps)))
    eqn:Hlen; cbn.
  - apply bool_decide_eq_true in Hlen.
    destruct (every_same (closed_deps m deps) (Array_sort deps)) eqn:Hev; cbn.
    + apply every_same_spec in Hev; [|done]. rewrite <-Hev.
      split_and!; [apply get_set_eq|by (intros; apply get_set_ne)|done|done].
    + split_and!; [apply get_set_eq|by (intros; rewrite !get_set_ne)|..|done].
      split; [done|]. intros Heq. rewrite Heq, every_same_refl in Hev. done.
  - apply bool_decide_eq_false in Hlen.
    split_and!; [apply get_set_eq|by (intros; rewrite !get_set_ne)|..|done].
    split; [done|]. intros Heq. by rewrite Heq in Hlen.
Qed.

Lemma close_key_defined m k deps :
  Dict.get m k = Some deps → is_Some (close_key m k).
Proof. intros Hget. unfold close_key. rewrite Hget. by eexists. Qed.

(** *** A pass that reports no change *)

Lemma same_sets_refl m : same_sets m m.
Proof. intros k. by destruct (Dict.get m k). Qed.

Lemma same_sets_trans m1 m2 m3 : same_sets m1 m2 → same_sets m2 m3 → same_sets m1 m3.
Proof.
  intros H12 H23 k. specialize (H12 k). specialize (H23 k).
  repeat case_match; try done. by etrans.
Qed.

Lemma closed_at_same_sets m m' k : same_sets m m' → closed_at m k → closed_at m' k.
Proof.
  intros Hsame Hclosed deps d d_deps x Hk Hd Hgd Hx.
  pose proof (Hsame k) as Hsk. pose proof (Hsame d) as Hsd.
  rewrite Hk in Hsk. rewrite Hgd in Hsd.
  destruct (Dict.get m k) as [deps0|] eqn:Hk0; [|done].
  destruct (Dict.get m d) as [d_deps0|] eqn:Hd0; [|done].
  rewrite <-Hsk. eapply (Hclosed deps0 d d_deps0); [done|by rewrite Hsk|done|by rewrite Hsd].
Qed.

Lemma close_key_unmodified m k m' :
  close_key m k = Some (m', false) → same_sets m m' ∧ closed_at m' k.
Proof.
  intros Hstep. destruct (close_key_spec _ _ _ _ Hstep)
    as (deps & Hget & Hget' & Hother & Hb & _).
  assert (Array_sort deps = closed_deps m deps) as Heq by by apply Hb.
  assert (same_sets m m') as Hsame.
  { intros k'. destruct (decide (k = k')) as [<-|Hne].
    - rewrite Hget, Hget', <-Heq. by rewrite Array_sort_Permutation.
    - rewrite Hother by done. by destruct (Dict.get m k'). }
  split; [done|]. intros deps' d d_deps x Hk Hd Hgd Hx.
  rewrite Hget' in Hk. injection Hk as <-.
  apply elem_of_closed_deps. right.
  pose proof (Hsame d) as Hsd. rewrite Hgd in Hsd.
  destruct (Dict.get m d) as [d_deps0|] eqn:Hd0; [|done].
  exists d, d_deps0. split_and!; [|done|by rewrite Hsd].
  by rewrite <-Heq, elem_of_Array_sort in Hd.
Qed.

Lemma close_keys_unmodified keys m modified m' :
  close_keys keys m modified = Some (m', false) →
  modified = false ∧ same_sets m m' ∧ ∀ k, k ∈ keys → closed_at m' k.
Proof.
  revert m modified. induction keys as [|k keys IH]; intros m modified; cbn.
  - intros [= -> ->]. split_and!; [done|apply same_sets_refl|].
    by intros k ?%elem_of_nil.
  - destruct (close_key m k) as [[m1 b]|] eqn:Hstep; [|done].
    intros (Hflag & Hsame & Hclosed)%IH. destruct b; [done|]. subst modified.
    apply close_key_unmodified in Hstep as [Hsame1 Hk].
    split_and!; [done|by eapply same_sets_trans|].
    intros k' [->|Hin]%elem_of_cons; [|by apply Hclosed].
    by eapply closed_at_same_sets.
Qed.

Lemma closed_at_all m : (∀ k, closed_at m k) ↔ closed m.
Proof. unfold closed, closed_at. naive_solver. Qed.

Section closure.
Context (raw : DataDependencyMap).
Implicit Types (m : DataDependencyMap) (k d x : string) (mid : list string).

Lemma chain_app k l1 d l2 x :
  chain raw k (l1 ++ d :: l2) x ↔ chain raw k l1 d ∧ chain raw d l2 x.
Proof. revert k. induction l1 as [|e l1 IH]; intros k; cbn; [done|]. rewrite IH. tauto. Qed.

Lemma chain_source k mid x : chain raw k mid x → is_Some (Dict.get raw k).
Proof. destruct mid; cbn; [|intros [He _]; revert He]; intros (deps & -> & _); by eexists. Qed.

Lemma chain_sources k mid x s :
  chain raw k mid x → s ∈ k :: mid → s ∈ Dict.own_keys raw.
Proof.
  revert k. induction mid as [|d mid IH]; intros k Hc Hs.
  - apply list_elem_of_singleton in Hs as ->. by eapply get_is_Some, chain_source.
  - apply elem_of_cons in Hs as [->|Hs]; [by eapply get_is_Some, chain_source|].
    destruct Hc as [_ Hc]. by eapply IH.
Qed.

Lemma reach_trans k d x : reach raw k d → reach raw d x → reach raw k x.
Proof. intros [l1 H1] [l2 H2]. exists (l1 ++ d :: l2). by apply chain_app. Qed.

Lemma edge_reach k x : edge raw k x → reach raw k x.
Proof. intros He. by exists []. Qed.

(** A walk can be cut down to one that leaves each name at most once. *)
Lemma chain_shorten k mid x :
  chain raw k mid x → ∃ mid', chain raw k mid' x ∧ NoDup (k :: mid').
Proof.
  revert k. induction mid as [|d mid IH]; intros k Hc.
  - exists []. split; [done|]. apply NoDup_singleton.
  - destruct Hc as [He Hc]. destruct (IH d Hc) as (mid' & Hc' & Hnd).
    destruct (decide (k ∈ d :: mid')) as [Hin|Hnin].
    + apply list_elem_of_split in Hin as (l1 & l2 & Heq).
      destruct l1 as [|e l1]; simplify_eq/=.
      * by eexists.
      * apply chain_app in Hc' as [_ Hc']. exists l2. split; [done|].
        apply NoDup_cons in Hnd as [_ Hnd]. by apply NoDup_app in Hnd as (_ & _ & ?).
    + exists (d :: mid'). split; [done|]. by apply NoDup_cons.
Qed.

Lemma reach_short k x :
  reach raw k x → ∃ mid, chain raw k mid x ∧ length mid < length raw.
Proof.
  intros [mid Hc]. apply chain_shorten in Hc as (mid' & Hc & Hnd).
  exists mid'. split; [done|].
  assert (k :: mid' ⊆+ Dict.own_keys raw) as Hsub.
  { apply NoDup_submseteq; [done|]. intros s. by apply (chain_sources k mid' x). }
  apply submseteq_length in Hsub. unfold Dict.own_keys in Hsub.
  rewrite length_fmap in Hsub. cbn in Hsub. lia.
Qed.

(** *** Invariants of the closure loop *)

Lemma raw_same_keys : same_keys raw raw.
Proof. done. Qed.

Lemma raw_sound : sound raw raw.
Proof. intros k deps x Hget Hx. apply edge_reach. by exists deps. Qed.

Lemma raw_complete k : complete_at raw 1 raw k.
Proof. intros [|??] x Hlen Hc; [done|cbn in Hlen; lia]. Qed.

Lemma close_key_step n m k m' b :
  1 ≤ n → same_keys raw m → sound raw m → (∀ k', complete_at raw n m k') →
  close_key m k = Some (m', b) →
  same_keys raw m' ∧ sound raw m'
  ∧ (∀ j k', complete_at raw j m k' → complete_at raw j m' k')
  ∧ complete_at raw (S n) m' k
  ∧ (∀ k', clean_at m k' ∨ k' = k → clean_at m' k').
Proof.
  intros Hn Hkeys Hsound Hcomplete
    (deps & Hget & Hget' & Hother & _)%close_key_spec.
  assert (∀ k', is_Some (Dict.get m' k') ↔ is_Some (Dict.get m k')) as Hdom.
  { intros k'. destruct (decide (k = k')) as [<-|Hne].
    - by rewrite Hget, Hget'.
    - by rewrite Hother. }
  split_and!.
  - intros k'. by rewrite Hdom.
  - intros k' deps' x Hk' Hx. destruct (decide (k = k')) as [<-|Hne].
    + rewrite Hget' in Hk'. injection Hk' as <-.
      apply elem_of_closed_deps in Hx as [Hx|(d & d_deps & Hd & Hgd & Hx)].
      * by eapply Hsound.
      * eapply reach_trans; by eapply Hsound.
    + rewrite Hother in Hk' by done. by eapply Hsound.
  - intros j k' Hj mid x Hlen Hc.
    destruct (Hj mid x Hlen Hc) as (deps' & Hk' & Hx).
    destruct (decide (k = k')) as [<-|Hne].
    + exists (closed_deps m deps). split; [done|].
      apply elem_of_closed_deps. left. congruence.
    + exists deps'. by rewrite Hother.
  - intros mid x Hlen Hc. exists (closed_deps m deps). split; [done|].
    apply elem_of_closed_deps. destruct mid as [|d mid]; cbn in Hc.
    + left. destruct (Hcomplete k [] x) as (deps' & ? & ?); [cbn; lia|done|].
      congruence.
    + right. destruct Hc as [He Hc].
      destruct (Hcomplete k [] d) as (deps' & ? & ?); [cbn; lia|done|].
      destruct (Hcomplete d mid x) as (d_deps & ? & ?); [cbn in Hlen; lia|done|].
      exists d, d_deps. split_and!; [congruence|done..].
  - intros k' Hclean deps' Hk'. destruct (decide (k = k')) as [<-|Hne].
    + rewrite Hget' in Hk'. injection Hk' as <-. apply closed_deps_clean.
    + destruct Hclean as [Hclean| ->]; [|done]. apply Hclean. by rewrite <-Hother.
Qed.

(** One pass lifts every processed key one level and leaves it clean. *)
Lemma close_keys_pass n keys m modified :
  1 ≤ n → same_keys raw m → sound raw m → (∀ k', complete_at raw n m k') →
  (∀ k, k ∈ keys → is_Some (Dict.get raw k)) →
  ∃ m' modified',
    close_keys keys m modified = Some (m', modified')
    ∧ same_keys raw m' ∧ sound raw m'
    ∧ (∀ j k', complete_at raw j m k' → complete_at raw j m' k')
    ∧ (∀ k, k ∈ keys → complete_at raw (S n) m' k)
    ∧ (∀ k', clean_at m k' ∨ k' ∈ keys → clean_at m' k').
Proof.
  intros Hn. revert m modified.
  induction keys as [|k keys IH]; intros m modified Hkeys Hsound Hcomplete Hdom.
  { exists m, modified. split_and!; try done.
    - by intros k ?%elem_of_nil.
    - intros k' [?|?%elem_of_nil]; done. }
  cbn. destruct (close_key_defined m k) with (deps := default [] (Dict.get m k))
    as [[m1 b] Hstep].
  { destruct (Hkeys k) as [_ [deps ->]]; [apply Hdom; left|done]. }
  rewrite Hstep.
  destruct (close_key_step n m k m1 b Hn Hkeys Hsound Hcomplete Hstep)
    as (Hkeys1 & Hsound1 & Hmono1 & Hk1 & Hclean1).
  destruct (IH m1 (if b then true else modified)) as
    (m' & modified' & Hrun & Hkeys' & Hsound' & Hmono' & Hlevel' & Hclean');
    [done|done|by (intros; apply Hmono1)|by (intros; apply Hdom; right)|].
  exists m', modified'. split_and!; try done.
  - intros j k' Hj. by apply Hmono', Hmono1.
  - intros k' [->|Hin]%elem_of_cons; [by apply Hmono'|by apply Hlevel'].
  - intros k' [Hc|[->|Hin]%elem_of_cons]; apply Hclean'; auto.
Qed.

(** Once every walk is accounted for, the mapping is closed. *)
Lemma saturated_closed n m :
  length raw ≤ n → sound raw m → (∀ k, complete_at raw n m k) → closed m.
Proof.
  intros Hn Hsound Hcomplete k deps d d_deps x Hk Hd Hgd Hx.
  assert (reach raw k x) as (mid & Hc & Hlen)%reach_short.
  { eapply reach_trans; by eapply Hsound. }
  destruct (Hcomplete k mid x) as (deps' & ? & ?); [lia|done|]. congruence.
Qed.

Lemma close_key_stable m k deps :
  closed m → Dict.get m k = Some deps → NoDup deps → Sorted String.le deps →
  close_key m k = Some (m, false).
Proof.
  intros Hclosed Hget Hnd Hsorted.
  assert (closed_deps m deps = deps) as Heq.
  { unfold closed_deps. rewrite with_transitives_unfold.
    rewrite deduplicate_app_covered; [by apply Array_sort_sorted|done|].
    intros x (d_deps & Hx & (d & Hd & Hgd)%list_elem_of_omap)%list_elem_of_join.
    by eapply Hclosed. }
  destruct (close_key_defined m k deps Hget) as [[m' b] Hstep].
  rewrite Hstep. destruct (close_key_spec _ _ _ _ Hstep)
    as (deps' & Hget' & _ & _ & Hb & Hm').
  assert (deps' = deps) as -> by congruence.
  assert (b = false) as ->.
  { apply Hb. by rewrite Heq, Array_sort_sorted. }
  rewrite Hm', Array_sort_sorted, set_get_id by done. done.
Qed.

Lemma close_keys_stable keys m modified :
  closed m → (∀ k, clean_at m k) →
  (∀ k, k ∈ keys → is_Some (Dict.get m k)) →
  close_keys keys m modified = Some (m, modified).
Proof.
  intros Hclosed Hclean. induction keys as [|k keys IH]; intros Hdom; [done|].
  cbn. destruct (Hdom k) as [deps Hget]; [left|].
  destruct (Hclean k deps Hget) as [Hnd Hsorted].
  rewrite (close_key_stable m k deps) by done. apply IH.
  intros k' Hk'. apply Hdom. by right.
Qed.

(** *** The loop returns *)

Context (keys : list string).
Context (keys_own : ∀ k, k ∈ keys ↔ is_Some (Dict.get raw k)).

Lemma complete_at_absent n m k : Dict.get raw k = None → complete_at raw n m k.
Proof.
  intros Hnone mid x _ Hc. apply chain_source in Hc as [? Hc]. congruence.
Qed.

Lemma clean_at_absent m k : Dict.get m k = None → clean_at m k.
Proof. intros Hnone deps Hget. congruence. Qed.

Lemma close_loop_returns n budget m :
  1 ≤ n → same_keys raw m → sound raw m → (∀ k, complete_at raw n m k) →
  (2 ≤ n → ∀ k, clean_at m k) →
  length raw ≤ n + budget →
  (n = 1 → raw = [] ∨ 1 ≤ budget) →
  ∃ m', close_loop (S budget) keys m = Returned m'
        ∧ same_keys raw m' ∧ sound raw m' ∧ closed m' ∧ (∀ k, clean_at m' k)
        ∧ (∀ k, complete_at raw 1 m' k).
Proof.
  revert n m. induction budget as [|budget IH];
    intros n m Hn Hkeys Hsound Hcomplete Hclean Hbudget Hfirst.
  - (* the only pass allowed finds nothing to change *)
    assert (close_keys keys m false = Some (m, false) ∧ closed m
            ∧ ∀ k, clean_at m k) as (Hrun & Hclosed & Hcl).
    { destruct (decide (n = 1)) as [->|Hne].
      - destruct (Hfirst eq_refl) as [Hraw|?]; [|lia].
        assert (keys = []) as ->.
        { apply elem_of_nil_inv. intros k Hk%keys_own.
          rewrite Hraw in Hk. by destruct Hk. }
        split_and!; [done|..].
        + intros k deps d d_deps x Hk. assert (is_Some (Dict.get raw k)) as Hs.
          { apply Hkeys. by eexists. }
          rewrite Hraw in Hs. by destruct Hs.
        + intros k. apply clean_at_absent.
          destruct (Dict.get m k) eqn:Hk; [|done].
          assert (is_Some (Dict.get raw k)) as Hs by (apply Hkeys; by eexists).
          rewrite Hraw in Hs. by destruct Hs.
      - assert (closed m) as Hclosed
          by (apply (saturated_closed n); [lia|done..]).
        split_and!; [|done|apply Hclean; lia].
        apply close_keys_stable; [done|apply Hclean; lia|].
        intros k Hk. by apply Hkeys, keys_own. }
    exists m. cbn. rewrite Hrun. split_and!; try done.
    intros k mid x Hlen. apply Hcomplete. lia.
  - destruct (close_keys_pass n keys m false Hn Hkeys Hsound Hcomplete)
      as (m1 & modified & Hrun & Hkeys1 & Hsound1 & Hmono1 & Hlevel1 & Hclean1).
    { intros k. apply keys_own. }
    assert (∀ k, complete_at raw (S n) m1 k) as Hcomplete1.
    { intros k. destruct (Dict.get raw k) eqn:Hk.
      - apply Hlevel1, keys_own. by eexists.
      - by apply complete_at_absent. }
    assert (∀ k, clean_at m1 k) as Hcl1.
    { intros k. destruct (Dict.get m1 k) eqn:Hk.
      - apply Hclean1. right. apply keys_own, Hkeys1. by eexists.
      - by apply clean_at_absent. }
    change (close_loop (S (S budget)) keys m) with
      (match close_keys keys m false with
       | Some (map, modified) =>
           if modified then close_loop (S budget) keys map else Returned map
       | None => Threw
       end).
    rewrite Hrun. destruct modified.
    + apply (IH (S n)); [lia|done..|lia|lia].
    + exists m1. split_and!; try done.
      * apply close_keys_unmodified in Hrun as (_ & _ & Hclosed).
        apply closed_at_all. intros k.
        destruct (Dict.get m1 k) eqn:Hk.
        -- apply Hclosed, keys_own, Hkeys1. by eexists.
        -- intros deps d d_deps x Hk'. congruence.
      * intros k mid x Hlen. apply Hcomplete1. lia.
Qed.

(** A closed mapping that contains the raw edges contains every walk. *)
Lemma closed_contains_reach m k x :
  closed m → (∀ k, complete_at raw 1 m k) → reach raw k x →
  ∃ deps, Dict.get m k = Some deps ∧ x ∈ deps.
Proof.
  intros Hclosed Hedges [mid Hc]. revert k Hc.
  induction mid as [|d mid IH]; intros k Hc.
  - apply (Hedges k [] x); [cbn; lia|done].
  - destruct Hc as [He Hc].
    destruct (Hedges k [] d) as (deps & Hk & Hd); [cbn; lia|done|].
    destruct (IH d Hc) as (d_deps & Hgd & Hx).
    exists deps. split; [done|]. by eapply Hclosed.
Qed.

End closure.

Lemma close_loop_mono passes passes' keys m m' :
  close_loop passes keys m = Returned m' → passes ≤ passes' →
  close_loop passes' keys m = Returned m'.
Proof.
  revert passes' m. induction passes as [|passes IH]; intros [|passes'] m; cbn;
    try done; [lia|].
  destruct (close_keys keys m false) as [[m1 []]|]; try done.
  intros Hrun Hle. apply IH; [done|lia].
Qed.

(** *** The raw mapping has each key once *)

Lemma own_keys_set {V} (m : Dict.t V) k v :
  Dict.own_keys (Dict.set m k v)
  = match Dict.get m k with
    | Some _ => Dict.own_keys m
    | None => Dict.own_keys m ++ [k]
    end.
Proof.
  unfold Dict.own_keys. induction m as [|[k' v'] m IH]; cbn; [done|].
  case_bool_decide; cbn; [done|]. rewrite IH. by destruct (Dict.get m k).
Qed.

Lemma NoDup_own_keys_set {V} (m : Dict.t V) k v :
  NoDup (Dict.own_keys m) → NoDup (Dict.own_keys (Dict.set m k v)).
Proof.
  intros Hnd. rewrite own_keys_set. destruct (Dict.get m k) eqn:Hget; [done|].
  apply NoDup_app. split_and!; [done| |apply NoDup_singleton].
  intros x Hx ->%list_elem_of_singleton.
  apply get_is_Some in Hx as [? Hx]. congruence.
Qed.

Lemma visit_map cur m :
  (visit cur m).2 = m
  ∨ ∃ p d, (visit cur m).2 = record_dependency m p d.
Proof.
  destruct cur as [p [n|]]; unfold visit; cbn; [|by left].
  repeat case_match; cbn; eauto.
Qed.

Lemma drain_preserves (P : DataDependencyMap → Prop) :
  (∀ m p d, P m → P (record_dependency m p d)) →
  ∀ q m, P m → P (drain q m).
Proof.
  intros Hrec q m. funelim (drain q m); [done|].
  intros HP. apply H; [done|]. destruct (visit_map cur map) as [->|(p & d & ->)]; auto.
Qed.

Lemma NoDup_raw_dependencies root : NoDup (Dict.own_keys (raw_dependencies root)).
Proof.
  unfold raw_dependencies.
  apply (drain_preserves (λ m, NoDup (Dict.own_keys m))); [|constructor].
  intros m p d Hnd. by apply NoDup_own_keys_set.
Qed.

Lemma raw_keys_le_names raw :
  NoDup (Dict.own_keys raw) → length raw ≤ length (names_involved raw).
Proof.
  intros Hnd. rewrite <-(length_fmap fst raw). fold (Dict.own_keys raw).
  apply submseteq_length, NoDup_submseteq; [done|].
  intros x Hx. unfold names_involved. rewrite elem_of_remove_dups, elem_of_app. by left.
Qed.

(** *** What [extractDependencies] returns *)

Lemma extractDependencies_returns root :
  let raw := raw_dependencies root in
  ∃ m, extractDependencies root = Returned m
       ∧ same_keys raw m ∧ sound raw m ∧ closed m
       ∧ (∀ k, clean_at m k) ∧ (∀ k, complete_at raw 1 m k).
Proof.
  intros raw. unfold extractDependencies, extractDependencies_within. fold raw.
  apply (close_loop_returns raw (ObjectKeys.keys raw)) with (n := 1).
  - intros k. by rewrite object_keys_elem_of, get_is_Some.
  - done.
  - apply raw_same_keys.
  - apply raw_sound.
  - apply raw_complete.
  - lia.
  - lia.
  - intros _. destruct raw; [by left|right; cbn; lia].
Qed.

(** ** Dependency extractor *)

(** C2, as the code has it.  In
    [{ c() { return this.a }  a = 1;  b = this.c; }] the method [c] is a leaf
    of the traversal, so no edge from [c] to [a] is recorded: the mapping
    gives [b] the set [{c}] and has no entry for [c].  With [c] declared as
    the field [c = this.a] the closure does give [b] the set [{a, c}]. *)
Theorem extractDependencies_method_chain :
  extractDependencies Sample.method_chain = Returned [("b", ["c"])]
  ∧ extractDependencies Sample.field_chain
    = Returned [("c", ["a"]); ("b", ["a"; "c"])].
Proof. split; reflexivity. Qed.

(** C2 fails as stated: no set of [b] holds both [c] and [a]. *)
Lemma extractDependencies_method_chain_counterexample :
  ¬ ∃ m deps,
      extractDependencies Sample.method_chain = Returned m
      ∧ Dict.get m "b" = Some deps ∧ "c" ∈ deps ∧ "a" ∈ deps.
Proof.
  intros (m & deps & Hrun & Hget & _ & Ha).
  vm_compute in Hrun. injection Hrun as <-.
  vm_compute in Hget. injection Hget as <-.
  apply list_elem_of_singleton in Ha. discriminate.
Qed.

(** C3. The returned mapping is closed: whenever [d] is in [map[k]] and [d]
    has an entry, every element of [map[d]] is in [map[k]]. *)
Theorem extractDependencies_closed (root : Node) (m : DataDependencyMap) :
  extractDependencies root = Returned m →
  ∀ k deps d d_deps x,
    Dict.get m k = Some deps → d ∈ deps →
    Dict.get m d = Some d_deps → x ∈ d_deps → x ∈ deps.
Proof.
  intros Hrun. destruct (extractDependencies_returns root)
    as (m' & Hrun' & _ & _ & Hclosed & _).
  rewrite Hrun in Hrun'. injection Hrun' as ->. exact Hclosed.
Qed.

Lemma extractDependencies_closed_witness :
  extractDependencies Sample.field_chain
  = Returned [("c", ["a"]); ("b", ["a"; "c"])]
  ∧ "a" ∈ ["a"; "c"].
Proof.
  split; [reflexivity|].
  apply (extractDependencies_closed Sample.field_chain
           [("c", ["a"]); ("b", ["a"; "c"])] eq_refl "b" ["a"; "c"] "c" ["a"] "a");
    [reflexivity| |reflexivity|]; apply list_elem_of_In; cbn; tauto.
Defined.

(** C5, as the code has it.  A name occurs in its own set exactly when the
    member reaches itself along the recorded edges, by reading itself or
    through a cycle of members; the set of a member on no cycle does not
    contain the member. *)
Theorem extractDependencies_self_dependency (root : Node) (m : DataDependencyMap) :
  extractDependencies root = Returned m →
  ∀ k deps, Dict.get m k = Some deps →
    k ∈ deps ↔ reach (raw_dependencies root) k k.
Proof.
  intros Hrun k deps Hget. destruct (extractDependencies_returns root)
    as (m' & Hrun' & _ & Hsound & Hclosed & _ & Hedges).
  rewrite Hrun in Hrun'. injection Hrun' as <-. split.
  - intros Hk. by eapply Hsound.
  - intros Hreach.
    destruct (closed_contains_reach _ m k k Hclosed Hedges Hreach)
      as (deps' & ? & ?). congruence.
Qed.

Lemma extractDependencies_self_dependency_witness :
  "a" ∈ ["a"] ↔ reach (raw_dependencies Sample.self_reference) "a" "a".
Proof.
  apply (extractDependencies_self_dependency Sample.self_reference
           [("a", ["a"])]); reflexivity.
Defined.

(** C5 fails as stated: [{ a = this.a; }] yields [a ↦ [a]]. *)
Lemma extractDependencies_self_dependency_counterexample :
  ¬ ∀ root m k deps,
      extractDependencies root = Returned m →
      Dict.get m k = Some deps → k ∉ deps.
Proof.
  intros H.
  apply (H Sample.self_reference [("a", ["a"])] "a" ["a"]); [reflexivity..|].
  by apply list_elem_of_singleton.
Qed.




(** C10. Every dependency set of the returned mapping is free of duplicates
    and in ascending order. *)
Theorem extractDependencies_sorted_sets (root : Node) (m : DataDependencyMap) :
  extractDependencies root = Returned m →
  ∀ k deps, Dict.get m k = Some deps →
    NoDup deps ∧ Sorted String.le deps.
Proof.
  intros Hrun k deps Hget. destruct (extractDependencies_returns root)
    as (m' & Hrun' & _ & _ & _ & Hclean & _).
  rewrite Hrun in Hrun'. injection Hrun' as <-. by apply (Hclean k).
Qed.

Lemma extractDependencies_sorted_sets_witness :
  extractDependencies Sample.field_chain
  = Returned [("c", ["a"]); ("b", ["a"; "c"])]
  ∧ NoDup ["a"; "c"] ∧ Sorted String.le ["a"; "c"].
Proof.
  split; [reflexivity|].
  apply (extractDependencies_sorted_sets Sample.field_chain
           [("c", ["a"]); ("b", ["a"; "c"])] eq_refl "b");
    reflexivity.
Defined.

(** ** The store model: nothing that existed before a call is overwritten *)

Module StoreFacts.
Import Store.

Lemma preserves_refl s : preserves s s.
Proof. by intros r a. Qed.

Lemma preserves_length s s' : preserves s s' → length s ≤ length s'.
Proof.
  intros Hp. destruct (decide (length s = 0)) as [|Hne]; [lia|].
  destruct (lookup_lt_is_Some_2 s (length s - 1)) as [a Ha]; [lia|].
  apply Hp, lookup_lt_Some in Ha. lia.
Qed.

Section rules.
Context (s0 : store).

Lemma frames_ret {A} (a : A) (Q : A → Prop) : Q a → frames s0 (mret a) Q.
Proof. intros HQ s a' s' Hp [= <- <-]. done. Qed.

Lemma frames_bind {A B} (c : M A) (k : A → M B) (Q : A → Prop) (R : B → Prop) :
  frames s0 c Q → (∀ a, Q a → frames s0 (k a) R) → frames s0 (c ≫= k) R.
Proof.
  intros Hc Hk s b s' Hp Hrun.
  unfold mbind, M_bind, bind in Hrun.
  destruct (c s) as [[a s1]|] eqn:Hcs; [|done].
  destruct (Hc _ _ _ Hp Hcs) as [Hp1 HQ]. by eapply Hk.
Qed.

Lemma frames_fault {A} (Q : A → Prop) : frames s0 fault Q.
Proof. by intros s a s' _ ?. Qed.

Lemma frames_alloc a : frames s0 (alloc a) (fresh s0).
Proof.
  intros s r s' Hp [= <- <-]. split.
  - intros r a' Hr. apply lookup_app_l_Some. by apply Hp.
  - by apply preserves_length.
Qed.

Lemma frames_write r a : fresh s0 r → frames s0 (write r a) (λ _, True).
Proof.
  intros Hr s u s' Hp. unfold write. case_bool_decide; [|done].
  intros [= <- <-]. split; [|done]. intros r' a' Hr'.
  rewrite list_lookup_insert_ne; [by apply Hp|].
  apply lookup_lt_Some in Hr'. unfold fresh in Hr. lia.
Qed.

Lemma frames_read_nodes r : frames s0 (read_nodes r) (λ _, True).
Proof.
  intros s l s' Hp. unfold read_nodes.
  destruct (s !! r) as [[]|]; try done. by intros [= <- <-].
Qed.

Lemma frames_read_names r : frames s0 (read_names r) (λ _, True).
Proof.
  intros s l s' Hp. unfold read_names.
  destruct (s !! r) as [[]|]; try done. by intros [= <- <-].
Qed.

Lemma frames_read_entries r : frames s0 (read_entries r) (λ _, True).
Proof.
  intros s l s' Hp. unfold read_entries.
  destruct (s !! r) as [[]|]; try done. by intros [= <- <-].
Qed.

Lemma frames_inspect {A} (f : store → A) :
  frames s0 ((λ s, Some (f s, s)) : M A) (λ _, True).
Proof. by intros s a s' Hp [= <- <-]. Qed.

(** Symbolic execution: peel binds, using the rules for the primitives. *)
Ltac step :=
  lazymatch goal with
  | |- frames _ (mret _) _ => apply frames_ret
  | |- frames _ (ret _) _ => apply frames_ret
  | |- frames _ fault _ => apply frames_fault
  | |- frames _ (_ ≫= _) _ => eapply frames_bind
  | |- frames _ (alloc _) _ => apply frames_alloc
  | |- frames _ (write _ _) _ => apply frames_write
  | |- frames _ (read_nodes _) _ => apply frames_read_nodes
  | |- frames _ (read_names _) _ => apply frames_read_names
  | |- frames _ (read_entries _) _ => apply frames_read_entries
  end.

Lemma frames_push_all q el :
  fresh s0 q → frames s0 (push_all q el) (λ _, True).
Proof.
  intros Hq. unfold push_all. step; [step|]. intros old _. by step.
Qed.

Lemma frames_push_mapped q cur cur_node children :
  fresh s0 q → frames s0 (push_mapped q cur cur_node children) (λ _, True).
Proof.
  intros Hq. unfold push_mapped.
  step; [step|]. intros nodes _.
  step; [step|]. intros el _.
  step; [step|]. intros entries _. by apply frames_push_all.
Qed.

Lemma fresh_map_set map k r :
  fresh_map s0 map → fresh s0 r → fresh_map s0 (Dict.set map k r).
Proof.
  intros Hmap Hr k' r'. destruct (decide (k = k')) as [<-|Hne].
  - rewrite get_set_eq. by intros [= <-].
  - rewrite get_set_ne by done. apply Hmap.
Qed.

Lemma frames_record_dependency map p d :
  fresh_map s0 map →
  frames s0 (record_dependency map p d) (fresh_map s0).
Proof.
  intros Hmap. unfold record_dependency.
  eapply frames_bind with
    (Q := λ '(deps, map'), fresh s0 deps ∧ fresh_map s0 map').
  - destruct (Dict.get map p) as [deps|] eqn:Hget.
    + step. split; [by eapply Hmap|done].
    + step; [step|]. intros deps Hdeps. step.
      split; [done|]. by apply fresh_map_set.
  - intros [deps map'] [Hdeps Hmap'].
    step; [step|]. intros old _.
    step; [by step|]. intros _ _. by step.
Qed.

Lemma frames_visit q cur map :
  fresh s0 q → fresh_map s0 map →
  frames s0 (visit q cur map) (fresh_map s0).
Proof.
  intros Hq Hmap. unfold visit.
  repeat case_match;
    repeat first
      [ by apply frames_record_dependency
      | by apply frames_ret
      | eapply frames_bind;
        [ first [ by apply frames_push_mapped
                | by apply frames_push_all
                | by apply (frames_ret _ (λ _, True)) ]
        | intros _ _ ] ].
Qed.

Lemma frames_drain turns q map :
  fresh s0 q → fresh_map s0 map →
  frames s0 (drain turns q map) (fresh_map s0).
Proof.
  intros Hq. revert map. induction turns as [|turns IH]; intros map Hmap; cbn.
  { step. }
  step; [step|]. intros [|cur rest] _; [by step|].
  step; [by step|]. intros _ _.
  step; [by apply frames_visit|]. intros map' Hmap'. by apply IH.
Qed.

Lemma frames_concat_transitives map with_transitives deps :
  fresh s0 with_transitives →
  frames s0 (concat_transitives map with_transitives deps) (fresh s0).
Proof.
  revert with_transitives.
  induction deps as [|d deps IH]; intros wt Hwt; cbn; [by step|].
  step; [|intros wt' Hwt'; by apply IH].
  destruct (Dict.get map d); [|by step].
  step; [step|]. intros old _. step; [step|]. intros more _. step.
Qed.

Lemma frames_sort_names r : fresh s0 r → frames s0 (sort_names r) (λ _, True).
Proof. intros Hr. unfold sort_names. step; [step|]. intros l _. by step. Qed.

Lemma frames_close_key map k :
  fresh_map s0 map →
  frames s0 (close_key map k) (λ '(map', _), fresh_map s0 map').
Proof.
  intros Hmap. unfold close_key.
  destruct (Dict.get map k) as [map_k|] eqn:Hget; [|step].
  assert (fresh s0 map_k) as Hk by by eapply Hmap.
  step; [step|]. intros deps _.
  step; [step|]. intros wt Hwt.
  step; [by apply frames_concat_transitives|]. intros wt' Hwt'.
  step; [step|]. intros all _.
  step; [step|]. intros new_r Hnew.
  step; [by apply frames_sort_names|]. intros _ _.
  step; [by apply frames_sort_names|]. intros _ _.
  step; [step|]. intros original _.
  step; [step|]. intros new _.
  case_match; step; [by apply fresh_map_set|done].
Qed.

Lemma frames_close_keys keys map modified :
  fresh_map s0 map →
  frames s0 (close_keys keys map modified) (λ '(map', _), fresh_map s0 map').
Proof.
  revert map modified.
  induction keys as [|k keys IH]; intros map modified Hmap; cbn; [by step|].
  step; [by apply frames_close_key|]. intros [map' b] Hmap'. by apply IH.
Qed.

Lemma frames_close_loop passes keys map :
  fresh_map s0 map →
  frames s0 (close_loop passes keys map) (fresh_map s0).
Proof.
  revert map. induction passes as [|passes IH]; intros map Hmap; cbn; [step|].
  step; [by apply frames_close_keys|]. intros [map' []] Hmap'.
  - by apply IH.
  - by step.
Qed.

Lemma frames_extractDependencies turns passes root :
  frames s0 (extractDependencies turns passes root) (fresh_map s0).
Proof.
  unfold extractDependencies.
  step; [step|]. intros q Hq.
  step; [by apply frames_drain|]. intros map Hmap.
  by apply frames_close_loop.
Qed.

Section rewrite_rules.
Context {Options : Type}.
Context (comparator :
           Options → DataDependencyMap → option Node → option Node → Order).
Context (memberNodes : option Node → bool).
Context (C_capture :
           (option Node → bool) → (option Node → option Node → Order) →
           option Node → option Node → Order).
Context (Array_sort_by :
           (option Node → option Node → Order) →
           list (option Node) → list (option Node)).

Lemma frames_sorted_members turns passes options node members :
  frames s0
    (sorted_members comparator memberNodes C_capture Array_sort_by
       turns passes options node members)
    (fresh s0).
Proof.
  unfold sorted_members.
  step; [step|]. intros elems _.
  step; [step|]. intros copy Hcopy.
  step; [apply frames_extractDependencies|]. intros map _.
  step; [apply frames_inspect|]. intros deps _.
  step; [step|]. intros elems' _.
  step; [by step|]. intros _ _. by step.
Qed.

Lemma frames_preprocess_rewrite turns passes options node :
  frames s0
    (preprocess_rewrite comparator memberNodes C_capture Array_sort_by
       turns passes options node)
    (λ _, True).
Proof.
  destruct node; cbn; try by step.
  all: step; [apply frames_sorted_members|]; intros copy _; by step.
Qed.
End rewrite_rules.
End rules.

End StoreFacts.

(** ** The store model computes what the pure model computes *)

Section refinement.

Lemma keeps_nodes_refl s : keeps_nodes s s.
Proof. by intros r l. Qed.

Lemma keeps_nodes_trans s1 s2 s3 :
keeps_nodes s1 s2 → keeps_nodes s2 s3 → keeps_nodes s1 s3.
Proof. intros H12 H23 r l Hr. by apply H23, H12. Qed.

Lemma represents_keeps s s' :
keeps_nodes s s' →
(∀ t n, represents s t n → represents s' t n)
∧ (∀ t n, represents_opt s t n → represents_opt s' t n)
∧ (∀ l hl, represents_each s l hl → represents_each s' l hl).
Proof.
intros Hkeep. apply represents_mutind; intros; econstructor; eauto.
Qed.

Lemma represents_entry_keeps s s' e he :
keeps_nodes s s' → represents_entry s e he → represents_entry s' e he.
Proof.
intros Hkeep [Hp Hn]. split; [done|].
by apply (represents_keeps s s' Hkeep).
Qed.

Lemma represents_key_of s t n :
represents s t n → represents_opt s (key_of t) (Store.key_of n).
Proof. destruct 1; cbn; by repeat constructor. Qed.

Lemma represents_computed_true s t n :
represents s t n → Store.computed_true n = computed_true t.
Proof. by destruct 1. Qed.

Lemma represents_extractName s t n :
represents s t n → Store.extractName n = extractName t.
Proof.
intros Hrep. unfold Store.extractName, extractName.
rewrite (represents_computed_true s t n Hrep).
destruct (represents_key_of s t n Hrep) as [|k hk Hk]; [done|].
destruct Hk; try done.
match goal with H : represents _ _ _ |- _ => by destruct H end.
Qed.

Lemma represents_each_entries s l hl f hf :
(∀ o ho, represents_opt s o ho → represents_entry s (f o) (hf ho)) →
represents_each s l hl →
Forall2 (represents_entry s) (f <$> l) (hf <$> hl).
Proof. intros Hf. induction 1; constructor; auto. Qed.

(** *** Running the primitives *)

Lemma run_bind {A B} (c : Store.M A) (k : A → Store.M B) s a s1 r :
c s = Some (a, s1) → k a s1 = r → (c ≫= k) s = r.
Proof. intros Hc Hk. unfold mbind, Store.M_bind, Store.bind. by rewrite Hc. Qed.

Lemma run_read_nodes s r l :
s !! r = Some (Store.Nodes l) → Store.read_nodes r s = Some (l, s).
Proof. intros Hr. unfold Store.read_nodes. by rewrite Hr. Qed.

Lemma run_read_names s r l :
s !! r = Some (Store.Names l) → Store.read_names r s = Some (l, s).
Proof. intros Hr. unfold Store.read_names. by rewrite Hr. Qed.

Lemma run_read_entries s r l :
s !! r = Some (Store.Entries l) → Store.read_entries r s = Some (l, s).
Proof. intros Hr. unfold Store.read_entries. by rewrite Hr. Qed.

Lemma run_write s r a :
is_Some (s !! r) → Store.write r a s = Some (tt, <[r := a]> s).
Proof.
intros Hr%lookup_lt_is_Some. unfold Store.write.
by rewrite bool_decide_eq_true_2.
Qed.

(** *** How the relations fare under allocation and overwriting *)

Lemma keeps_nodes_alloc s a : keeps_nodes s (s ++ [a]).
Proof. intros r l Hr. by apply lookup_app_l_Some. Qed.

Lemma keeps_nodes_write s r a :
(∀ l, s !! r ≠ Some (Store.Nodes l)) → keeps_nodes s (<[r := a]> s).
Proof.
intros Hr r' l Hr'. rewrite list_lookup_insert_ne; [done|].
intros <-. by eapply Hr.
Qed.

Lemma represents_map_get s m hm k :
represents_map s m hm →
match Dict.get m k, Dict.get hm k with
| Some l, Some r => s !! r = Some (Store.Names l)
| None, None => True
| _, _ => False
end.
Proof.
intros [Hall _]. induction Hall as [|[k1 l1] [k2 r2] m hm [Hk Hr] _ IH]; cbn; [done|].
cbn in Hk, Hr. subst k2. by case_bool_decide.
Qed.

Lemma represents_map_keys s m hm :
represents_map s m hm → Dict.own_keys hm = Dict.own_keys m.
Proof.
intros [Hall _]. unfold Dict.own_keys.
induction Hall as [|[k1 l1] [k2 r2] m hm [Hk Hr] _ IH]; cbn; [done|].
cbn in Hk. by f_equal.
Qed.

Lemma represents_map_ref s m hm r :
represents_map s m hm → r ∈ hm.*2 → ∃ l, s !! r = Some (Store.Names l).
Proof.
intros [Hall _] Hin. induction Hall as [|[k1 l1] [k2 r2] m hm [Hk Hr] _ IH];
  cbn in *; [by apply elem_of_nil in Hin|].
apply elem_of_cons in Hin as [->|Hin]; eauto.
Qed.

Lemma get_ref_elem_of (hm : Store.Map) k r : Dict.get hm k = Some r → r ∈ hm.*2.
Proof.
induction hm as [|[k' r'] hm IH]; cbn; [done|].
case_bool_decide; [intros [= ->]; by left|]. intros ?. right. by apply IH.
Qed.

Lemma represents_map_alloc s m hm a :
represents_map s m hm → represents_map (s ++ [a]) m hm.
Proof.
intros [Hall Hnd]. split; [|done].
eapply Forall2_impl; [done|]. intros e he [? ?]. split; [done|].
by apply lookup_app_l_Some.
Qed.

Lemma represents_entries_write (s : list Store.Array)
  (m : DataDependencyMap) (hm : Store.Map) (q : Store.ref) a :
Forall2 (λ e he, e.1 = he.1 ∧ s !! he.2 = Some (Store.Names e.2)) m hm →
q ∉ hm.*2 →
Forall2 (λ e he, e.1 = he.1 ∧ <[q := a]> s !! he.2 = Some (Store.Names e.2))
  m hm.
Proof.
intros Hall Hq.
induction Hall as [|[k1 l1] [k2 r2] m hm [Hk Hr] _ IH]; [constructor|].
cbn in *. apply not_elem_of_cons in Hq as [Hne Hq].
constructor; [|by apply IH]. split; [done|]. cbn.
by rewrite list_lookup_insert_ne.
Qed.

Lemma represents_map_write s m hm q a :
represents_map s m hm → q ∉ hm.*2 → represents_map (<[q := a]> s) m hm.
Proof.
intros [Hall Hnd] Hq. split; [|done]. by apply represents_entries_write.
Qed.

(** [map[k].sort()] and [deps.push(...)]: the array of [k] is overwritten. *)
Lemma represents_map_overwrite s m hm k r l' :
represents_map s m hm → Dict.get hm k = Some r →
represents_map (<[r := Store.Names l']> s) (Dict.set m k l') hm.
Proof.
intros [Hall Hnd] Hget. split; [|done].
induction Hall as [|[k1 l1] [k2 r2] m hm [Hk Hr] Hall IH]; [done|].
cbn in *. subst k2. apply NoDup_cons in Hnd as [Hr2 Hnd].
case_bool_decide as Hk.
- injection Hget as ->. constructor.
  + split; [done|]. cbn. apply list_lookup_insert_eq.
    by eapply lookup_lt_Some.
  + by apply represents_entries_write.
- constructor; [|by apply IH]. split; [done|]. cbn.
  rewrite list_lookup_insert_ne; [done|]. intros <-.
  apply Hr2. by eapply get_ref_elem_of.
Qed.

(** [map[k] = array] for an array no property holds yet. *)
Lemma represents_map_set s m hm k r l' :
represents_map s m hm → r ∉ hm.*2 → s !! r = Some (Store.Names l') →
represents_map s (Dict.set m k l') (Dict.set hm k r).
Proof.
intros [Hall Hnd] Hr Hl.
induction Hall as [|[k1 l1] [k2 r2] m hm [Hk Hr2] Hall IH]; cbn in *.
- split; [by repeat constructor|]. apply NoDup_singleton.
- subst k2. apply NoDup_cons in Hnd as [Hr2' Hnd].
  apply not_elem_of_cons in Hr as [Hne Hr].
  case_bool_decide as Hk; cbn.
  + split; [by constructor|]. by apply NoDup_cons.
  + destruct (IH Hnd Hr) as [Hall' Hnd']. split; [by constructor|].
    cbn. apply NoDup_cons. split; [|done].
    clear -Hr2' Hne. induction hm as [|[k' r'] hm IH]; cbn in *.
    * by intros ->%list_elem_of_singleton.
    * apply not_elem_of_cons in Hr2' as [? ?].
      case_bool_decide; cbn; rewrite not_elem_of_cons; auto.
Qed.

(** *** The traversal *)

Lemma represents_state_alloc s pq m q hm a :
represents_state s pq m q hm → represents_state (s ++ [a]) pq m q hm.
Proof.
intros ((hq & Hq & Hall) & Hmap & Hfresh). split_and!; [|by apply represents_map_alloc|done].
exists hq. split; [by apply lookup_app_l_Some|].
eapply Forall2_impl; [done|]. intros e he.
apply represents_entry_keeps, keeps_nodes_alloc.
Qed.

Lemma sim_push_all s pq m q hm pe he :
represents_state s pq m q hm → Forall2 (represents_entry s) pe he →
∃ s', Store.push_all q he s = Some (tt, s')
      ∧ represents_state s' (pq ++ pe) m q hm ∧ keeps_nodes s s'.
Proof.
intros ((hq & Hq & Hall) & Hmap & Hfresh) Hnew.
exists (<[q := Store.Entries (hq ++ he)]> s).
assert (keeps_nodes s (<[q := Store.Entries (hq ++ he)]> s)) as Hkeep.
{ apply (keeps_nodes_write s q). intros l. by rewrite Hq. }
split_and!; [|split_and!|done].
- unfold Store.push_all. eapply run_bind; [by apply run_read_entries|].
  by apply run_write.
- exists (hq ++ he). split.
  + apply list_lookup_insert_eq. by eapply lookup_lt_Some.
  + apply Forall2_app; (eapply Forall2_impl; [done|]); intros e e';
      by apply represents_entry_keeps.
- by apply represents_map_write.
- done.
Qed.

Lemma sim_push_mapped s pq m q hm pe cur cur_node r hl :
represents_state s pq m q hm →
s !! r = Some (Store.Nodes hl) →
Forall2 (represents_entry s) pe (Store.queueEntryMapper cur cur_node <$> hl) →
∃ s', Store.push_mapped q cur cur_node r s = Some (tt, s')
      ∧ represents_state s' (pq ++ pe) m q hm ∧ keeps_nodes s s'.
Proof.
intros Hstate Hr Hnew.
set (el := Store.Entries (Store.queueEntryMapper cur cur_node <$> hl)).
destruct (sim_push_all (s ++ [el]) pq m q hm pe
            (Store.queueEntryMapper cur cur_node <$> hl))
  as (s' & Hrun & Hstate' & Hkeep).
{ by apply represents_state_alloc. }
{ eapply Forall2_impl; [done|]. intros e he.
  apply represents_entry_keeps, keeps_nodes_alloc. }
exists s'. split_and!; [|done|].
- unfold Store.push_mapped.
  eapply run_bind; [by apply run_read_nodes|].
  eapply run_bind; [reflexivity|].
  eapply run_bind; [|done].
  apply run_read_entries. by apply list_lookup_middle.
- eapply keeps_nodes_trans; [apply keeps_nodes_alloc|done].
Qed.

Lemma set_refs (hm : Store.Map) k r x :
x ∈ (Dict.set hm k r).*2 → x = r ∨ x ∈ hm.*2.
Proof.
induction hm as [|[k' r'] hm IH]; cbn.
- intros ->%list_elem_of_singleton. by left.
- case_bool_decide; cbn; rewrite !elem_of_cons; naive_solver.
Qed.

Lemma sim_record_dependency s pq m q hm p d :
represents_state s pq m q hm →
∃ hm' s', Store.record_dependency hm p d s = Some (hm', s')
          ∧ represents_state s' pq (record_dependency m p d) q hm'
          ∧ keeps_nodes s s'.
Proof.
intros ((hq & Hq & Hall) & Hmap & Hfresh).
pose proof (represents_map_get s m hm p Hmap) as Hget.
unfold Store.record_dependency, record_dependency.
set (d' := if JS.endsWith d "?" then JS.slice_0_m1 d else d).
destruct (Dict.get hm p) as [r|] eqn:Hr;
  destruct (Dict.get m p) as [l|] eqn:Hl; try done; cbn.
- assert (r ≠ q) as Hne.
  { intros ->. by apply Hfresh, (get_ref_elem_of hm p). }
  assert (keeps_nodes s (<[r := Store.Names (l ++ [d'])]> s)) as Hkeep.
  { apply (keeps_nodes_write s r). intros l0. by rewrite Hget. }
  exists hm, (<[r := Store.Names (l ++ [d'])]> s). split_and!; [|split_and!|done].
  + eapply run_bind; [reflexivity|]. cbn.
    eapply run_bind; [by apply run_read_names|].
    eapply run_bind; [by apply run_write|]. done.
  + exists hq. split; [by rewrite list_lookup_insert_ne|].
    eapply Forall2_impl; [done|]. intros e he. by apply represents_entry_keeps.
  + by apply represents_map_overwrite.
  + done.
- set (r := length s). set (s1 := s ++ [Store.Names []]).
  set (s2 := <[r := Store.Names ([] ++ [d'])]> s1).
  assert (r ∉ hm.*2) as Hrfresh.
  { intros (l & Hin%lookup_lt_Some)%(represents_map_ref s m hm); [|done].
    unfold r in Hin. lia. }
  assert (s1 !! r = Some (Store.Names [])) as Hr1 by by apply list_lookup_middle.
  assert (keeps_nodes s s2) as Hkeep.
  { eapply keeps_nodes_trans; [apply keeps_nodes_alloc|].
    apply (keeps_nodes_write s1 r). intros l. by rewrite Hr1. }
  assert (r ≠ q) as Hne.
  { intros Heq. apply lookup_lt_Some in Hq. unfold r in Heq. lia. }
  exists (Dict.set hm p r), s2. split_and!; [|split_and!|done].
  + eapply run_bind.
    { eapply run_bind; [reflexivity|]. reflexivity. }
    cbn. eapply run_bind; [by apply run_read_names|].
    eapply run_bind; [by apply run_write|]. done.
  + exists hq. split.
    * unfold s2. rewrite list_lookup_insert_ne by done.
      by apply lookup_app_l_Some.
    * eapply Forall2_impl; [done|]. intros e he. by apply represents_entry_keeps.
  + apply represents_map_set; [|done|].
    * apply represents_map_write; [by apply represents_map_alloc|done].
    * unfold s2. apply list_lookup_insert_eq. by eapply lookup_lt_Some.
  + intros [->|Hin]%set_refs; [|done]. apply lookup_lt_Some in Hq. unfold r in *. lia.
Qed.

Lemma represents_enqueue s e he t n o ho :
parent e = Store.parent he → represents s t n → represents_opt s o ho →
represents_entry s (queueEntryMapper e t o) (Store.queueEntryMapper he n ho).
Proof.
intros Hp Ht Ho. split; [|done]. cbn.
by rewrite Hp, (represents_extractName s t n).
Qed.

Lemma sim_ret s pq m q hm :
represents_state s pq m q hm →
∃ hm' s', (mret hm : Store.M Store.Map) s = Some (hm', s')
          ∧ represents_state s' (pq ++ []) m q hm' ∧ keeps_nodes s s'.
Proof.
intros Hstate. exists hm, s. rewrite app_nil_r.
split_and!; [done..|apply keeps_nodes_refl].
Qed.

Lemma sim_push_all_ret s pq m q hm pe he :
represents_state s pq m q hm → Forall2 (represents_entry s) pe he →
∃ hm' s', (Store.push_all q he ;; mret hm) s = Some (hm', s')
          ∧ represents_state s' (pq ++ pe) m q hm' ∧ keeps_nodes s s'.
Proof.
intros Hstate Hnew.
destruct (sim_push_all s pq m q hm pe he Hstate Hnew) as (s' & Hrun & ? & ?).
exists hm, s'. split_and!; [|done..]. by eapply run_bind.
Qed.

Lemma sim_push_mapped_ret s pq m q hm pe cur cur_node r hl :
represents_state s pq m q hm →
s !! r = Some (Store.Nodes hl) →
Forall2 (represents_entry s) pe (Store.queueEntryMapper cur cur_node <$> hl) →
∃ hm' s', (Store.push_mapped q cur cur_node r ;; mret hm) s = Some (hm', s')
          ∧ represents_state s' (pq ++ pe) m q hm' ∧ keeps_nodes s s'.
Proof.
intros Hstate Hr Hnew.
destruct (sim_push_mapped s pq m q hm pe cur cur_node r hl Hstate Hr Hnew)
  as (s' & Hrun & ? & ?).
exists hm, s'. split_and!; [|done..]. by eapply run_bind.
Qed.

Lemma represents_children s e he t n l hl :
parent e = Store.parent he → represents s t n →
represents_each s l hl →
Forall2 (represents_entry s)
  (queueEntryMapper e t <$> l) (Store.queueEntryMapper he n <$> hl).
Proof.
intros Hp Ht. apply represents_each_entries.
intros o ho. by apply represents_enqueue.
Qed.

Ltac solve_visit :=
cbn [fst snd];
first
  [ by apply sim_ret
  | by (rewrite ?list_fmap_compose; eapply sim_push_mapped_ret;
        [done|done|by apply represents_children])
  | by (eapply sim_push_all_ret;
        [done|constructor; [|by constructor];
              apply represents_enqueue; first [done|by constructor]])
  | by (eapply sim_push_all_ret;
        [done|constructor; [|by constructor];
              split; [done|by repeat constructor]]) ].

Lemma sim_visit s pq m q hm e he :
represents_state s pq m q hm → represents_entry s e he →
∃ hm' s', Store.visit q he hm s = Some (hm', s')
          ∧ represents_state s' (pq ++ (visit e m).1) (visit e m).2 q hm'
          ∧ keeps_nodes s s'.
Proof.
intros Hstate [Hp Hn]. destruct e as [p t], he as [hp n]. cbn in Hp, Hn.
subst hp. unfold Store.visit, visit. cbn [Store.node node Store.parent parent].
destruct Hn as [|t n Hrep]; [by apply sim_ret|].
pose proof Hrep as Hnode.
destruct Hrep as
  [ | | | | k hk c v hv Hk Hv | | | c hc l r hl Hc Hr Hl
  | o ho pr hpr Ho Hpr | | | | | | | | | ]; try solve_visit.
- (* a field: its initializer, when it has one *)
  destruct Hv; solve_visit.
- (* a call: the receiver of a member call, then the arguments *)
  cbn [fst snd].
  set (first_p := match c with
                  | MemberExpression object _ =>
                      [queueEntryMapper
                         {| parent := p; node := Some (CallExpression c l) |}
                         (CallExpression c l) (Some object)]
                  | _ => []
                  end).
  assert (∃ s1, match hc with
                | Store.MemberExpression object _ =>
                    Store.push_all q
                      [Store.queueEntryMapper
                         {| Store.parent := p;
                            Store.node := Some (Store.CallExpression hc r) |}
                         (Store.CallExpression hc r) (Some object)]
                | _ => Store.ret ()
                end s = Some (tt, s1)
                ∧ represents_state s1 (pq ++ first_p) m q hm
                ∧ keeps_nodes s s1) as (s1 & Hrun1 & Hstate1 & Hkeep1).
  { subst first_p. destruct Hc;
      try (exists s; rewrite app_nil_r;
           split_and!; [done..|apply keeps_nodes_refl]).
    apply sim_push_all; [done|]. constructor; [|by constructor].
    apply represents_enqueue; [done..|by constructor]. }
  destruct (sim_push_mapped_ret s1 (pq ++ first_p) m q hm
              (queueEntryMapper
                 {| parent := p; node := Some (CallExpression c l) |}
                 (CallExpression c l) ∘ Some <$> l)
              {| Store.parent := p;
                 Store.node := Some (Store.CallExpression hc r) |}
              (Store.CallExpression hc r) r hl)
    as (hm' & s' & Hrun & Hstate' & Hkeep'); [done|by apply Hkeep1|..].
  { rewrite list_fmap_compose. apply represents_children; [done|..].
    - by apply (represents_keeps s s1 Hkeep1).
    - by apply (represents_keeps s s1 Hkeep1). }
  exists hm', s'. split_and!.
  + by eapply run_bind.
  + by rewrite (assoc_L (++)).
  + by eapply keeps_nodes_trans.
- (* a member access: [this.name], or one more hop of a chain *)
  destruct Hpr; try solve_visit.
  destruct Ho; try solve_visit.
  destruct p as [p|]; [|solve_visit].
  destruct (JS.truthy (Some p)); [|solve_visit].
  cbn [fst snd]. rewrite app_nil_r. by apply sim_record_dependency.
Qed.

Lemma sim_drain turns s pq m q hm :
queue_size pq < turns → represents_state s pq m q hm →
∃ hm' s', Store.drain turns q hm s = Some (hm', s')
          ∧ represents_map s' (drain pq m) hm' ∧ keeps_nodes s s'.
Proof.
revert s pq m hm. induction turns as [|turns IH]; intros s pq m hm Hturns Hstate;
  [lia|].
destruct Hstate as ((hq & Hq & Hall) & Hmap & Hfresh). cbn [Store.drain].
destruct Hall as [|cur hcur pq hq Hcur Hall].
- exists hm, s. simp drain. split_and!; [|done|apply keeps_nodes_refl].
  eapply run_bind; [by apply run_read_entries|]. done.
- set (s1 := <[q := Store.Entries hq]> s).
  assert (keeps_nodes s s1) as Hkeep1.
  { apply (keeps_nodes_write s q). intros l. by rewrite Hq. }
  assert (represents_state s1 pq m q hm) as Hstate1.
  { split_and!; [|by apply represents_map_write|done].
    exists hq. split; [apply list_lookup_insert_eq; by eapply lookup_lt_Some|].
    eapply Forall2_impl; [done|]. intros e he. by apply represents_entry_keeps. }
  destruct (sim_visit s1 pq m q hm cur hcur Hstate1)
    as (hm1 & s2 & Hvisit & Hstate2 & Hkeep2).
  { by apply (represents_entry_keeps s s1). }
  destruct (IH s2 (pq ++ (visit cur m).1) (visit cur m).2 hm1)
    as (hm' & s' & Hrun & Hmap' & Hkeep'); [|done|].
  { pose proof (visit_decreases cur m) as Hdec.
    unfold queue_size in *. rewrite sum_list_with_app. cbn in Hturns. lia. }
  exists hm', s'. simp drain. split_and!; [|done|].
  + eapply run_bind; [by apply run_read_entries|]. cbn.
    eapply run_bind; [apply run_write; by rewrite Hq|].
    by eapply run_bind.
  + eapply keeps_nodes_trans; [done|]. by eapply keeps_nodes_trans.
Qed.

(** *** The closure *)

Lemma keeps_nodes_app s ext : keeps_nodes s (s ++ ext).
Proof. intros r l Hr. by apply lookup_app_l_Some. Qed.

Lemma represents_map_app s m hm ext :
represents_map s m hm → represents_map (s ++ ext) m hm.
Proof.
intros [Hall Hnd]. split; [|done].
eapply Forall2_impl; [done|]. intros e he [? ?]. split; [done|].
by apply lookup_app_l_Some.
Qed.

Lemma sim_concat_transitives s m hm wt acc deps :
represents_map s m hm → s !! wt = Some (Store.Names acc) →
∃ wt' ext,
  Store.concat_transitives hm wt deps s = Some (wt', s ++ ext)
  ∧ (s ++ ext) !! wt'
    = Some (Store.Names
              (foldl (λ acc d, match Dict.get m d with
                               | Some d_deps => acc ++ d_deps
                               | None => acc
                               end) acc deps)).
Proof.
revert s wt acc. induction deps as [|d deps IH]; intros s wt acc Hmap Hwt.
- exists wt, []. rewrite app_nil_r. done.
- cbn [Store.concat_transitives foldl].
  pose proof (represents_map_get s m hm d Hmap) as Hget.
  destruct (Dict.get hm d) as [rd|] eqn:Hrd;
    destruct (Dict.get m d) as [dd|] eqn:Hdd; try done.
  + set (cell := Store.Names (acc ++ dd)).
    destruct (IH (s ++ [cell]) (length s) (acc ++ dd))
      as (wt' & ext & Hrun & Hwt'); [by apply represents_map_app|
                                     by apply list_lookup_middle|].
    exists wt', ([cell] ++ ext). rewrite (assoc_L (++)). split; [|done].
    eapply run_bind; [|done].
    eapply run_bind; [by apply run_read_names|].
    eapply run_bind; [by apply run_read_names|]. done.
  + destruct (IH s wt acc) as (wt' & ext & Hrun & Hwt'); [done..|].
    exists wt', ext. split; [|done]. by eapply run_bind.
Qed.

Lemma run_sort_names s r l :
s !! r = Some (Store.Names l) →
Store.sort_names r s = Some (tt, <[r := Store.Names (Array_sort l)]> s).
Proof.
intros Hr. unfold Store.sort_names.
eapply run_bind; [by apply run_read_names|]. apply run_write. by rewrite Hr.
Qed.

Lemma sim_close_key s m hm k m' b :
represents_map s m hm → close_key m k = Some (m', b) →
∃ hm' s', Store.close_key hm k s = Some ((hm', b), s')
          ∧ represents_map s' m' hm' ∧ keeps_nodes s s'.
Proof.
intros Hmap. unfold close_key, Store.close_key.
pose proof (represents_map_get s m hm k Hmap) as Hget.
destruct (Dict.get m k) as [deps|] eqn:Hdeps; [|done].
destruct (Dict.get hm k) as [r|] eqn:Hr; [|done]. cbn.
set (all := with_transitives m deps).
set (new := Array_sort (deduplicate ∅ all)).
set (original := Array_sort deps).
intros [= <- <-].
(* the stores the call goes through *)
set (s1 := s ++ [Store.Names deps]).
destruct (sim_concat_transitives s1 m hm (length s) deps deps)
  as (wt & ext & Hconcat & Hwt);
  [by apply represents_map_app|by apply list_lookup_middle|].
fold (with_transitives m deps) in Hwt. fold all in Hwt.
set (s2 := s1 ++ ext) in *.
set (nr := length s2).
set (s3 := s2 ++ [Store.Names (deduplicate ∅ all)]).
set (s4 := <[nr := Store.Names new]> s3).
set (s5 := <[r := Store.Names original]> s4).
assert (r < length s) as Hrlt by by eapply lookup_lt_Some.
assert (length s ≤ length s2) as Hlen2.
{ unfold s2, s1. rewrite !length_app. lia. }
assert (r ≠ nr) as Hne by (unfold nr; lia).
assert (nr ∉ hm.*2) as Hfresh.
{ intros (l & Hin%lookup_lt_Some)%(represents_map_ref s m hm); [|done].
  unfold nr in Hin. lia. }
assert (s3 !! nr = Some (Store.Names (deduplicate ∅ all))) as Hnr3
  by by apply list_lookup_middle.
assert (s4 !! nr = Some (Store.Names new)) as Hnr4.
{ apply list_lookup_insert_eq. by eapply lookup_lt_Some. }
assert (s4 !! r = Some (Store.Names deps)) as Hr4.
{ unfold s4. rewrite list_lookup_insert_ne by done.
  unfold s3, s2, s1. by repeat apply lookup_app_l_Some. }
assert (s5 !! r = Some (Store.Names original)) as Hr5.
{ apply list_lookup_insert_eq. by eapply lookup_lt_Some. }
assert (s5 !! nr = Some (Store.Names new)) as Hnr5.
{ unfold s5. by rewrite list_lookup_insert_ne. }
assert (represents_map s4 m hm) as Hmap4.
{ apply represents_map_write; [|done].
  unfold s3, s2, s1. by repeat apply represents_map_app. }
assert (represents_map s5 (Dict.set m k original) hm) as Hmap5
  by by apply represents_map_overwrite.
assert (keeps_nodes s s5) as Hkeep.
{ eapply keeps_nodes_trans; [apply (keeps_nodes_app s [Store.Names deps])|].
  eapply keeps_nodes_trans; [apply (keeps_nodes_app s1 ext)|].
  eapply keeps_nodes_trans;
    [apply (keeps_nodes_app s2 [Store.Names (deduplicate ∅ all)])|].
  eapply keeps_nodes_trans.
  - apply (keeps_nodes_write s3 nr). intros l. by rewrite Hnr3.
  - apply (keeps_nodes_write s4 r). intros l. by rewrite Hr4. }
exists (if negb (bool_decide (length original = length new))
           || negb (every_same new original)
        then Dict.set hm k nr else hm), s5.
split_and!.
- eapply run_bind; [by apply run_read_names|].
  eapply run_bind; [reflexivity|].
  eapply run_bind; [exact Hconcat|].
  eapply run_bind; [by apply run_read_names|].
  eapply run_bind; [reflexivity|].
  eapply run_bind; [by apply run_sort_names|].
  eapply run_bind; [by apply run_sort_names|].
  eapply run_bind; [by apply run_read_names|].
  eapply run_bind; [by apply run_read_names|].
  by destruct (negb _ || negb _).
- destruct (negb _ || negb _); [|done]. by apply represents_map_set.
- done.
Qed.

Lemma sim_close_keys keys s m hm modified m' modified' :
represents_map s m hm → close_keys keys m modified = Some (m', modified') →
∃ hm' s', Store.close_keys keys hm modified s = Some ((hm', modified'), s')
          ∧ represents_map s' m' hm' ∧ keeps_nodes s s'.
Proof.
revert s m hm modified. induction keys as [|k keys IH];
  intros s m hm modified Hmap; cbn.
- intros [= <- <-]. exists hm, s. split_and!; [done..|apply keeps_nodes_refl].
- destruct (close_key m k) as [[m1 b]|] eqn:Hstep; [|done]. intros Hrest.
  destruct (sim_close_key s m hm k m1 b Hmap Hstep)
    as (hm1 & s1 & Hrun1 & Hmap1 & Hkeep1).
  destruct (IH s1 m1 hm1 _ Hmap1 Hrest) as (hm' & s' & Hrun & Hmap' & Hkeep').
  exists hm', s'. split_and!; [|done|by eapply keeps_nodes_trans].
  by eapply run_bind.
Qed.

Lemma sim_close_loop passes keys s m hm m' :
represents_map s m hm → close_loop passes keys m = Returned m' →
∃ hm' s', Store.close_loop passes keys hm s = Some (hm', s')
          ∧ represents_map s' m' hm' ∧ keeps_nodes s s'.
Proof.
revert s m hm. induction passes as [|passes IH]; intros s m hm Hmap; cbn; [done|].
destruct (close_keys keys m false) as [[m1 modified]|] eqn:Hpass; [|done].
destruct (sim_close_keys keys s m hm false m1 modified Hmap Hpass)
  as (hm1 & s1 & Hrun1 & Hmap1 & Hkeep1).
destruct modified.
- intros Hrest.
  destruct (IH s1 m1 hm1 Hmap1 Hrest) as (hm' & s' & Hrun & Hmap' & Hkeep').
  exists hm', s'. split_and!; [|done|by eapply keeps_nodes_trans].
  by eapply run_bind.
- intros [= <-]. exists hm1, s1. split_and!; [|done..]. by eapply run_bind.
Qed.

Lemma represents_map_contents s m hm :
represents_map s m hm → Store.contents s hm = m.
Proof.
intros [Hall _]. unfold Store.contents.
induction Hall as [|[k1 l1] [k2 r2] m hm [Hk Hr] _ IH]; [done|].
cbn in *. subst k2. rewrite Hr. cbn. by f_equal.
Qed.

(** *** The extractor and the callback on a store that holds a tree *)

Lemma Store_extractDependencies_refines s t n turns passes m :
represents s t n → node_size t < turns →
extractDependencies_within passes t = Returned m →
∃ hm s', Store.extractDependencies turns passes n s = Some (hm, s')
         ∧ Store.contents s' hm = m ∧ keeps_nodes s s'.
Proof.
intros Hrep Hturns Hpure. unfold extractDependencies_within in Hpure.
unfold Store.extractDependencies.
set (root := {| Store.parent := None; Store.node := Some n |}).
set (s0 := s ++ [Store.Entries [root]]).
assert (represents_state s0 [ {| parent := None; node := Some t |} ] []
          (length s) []) as Hstate.
{ split_and!.
  - exists [root]. split; [by apply list_lookup_middle|].
    constructor; [|constructor]. split; [done|]. constructor.
    by apply (represents_keeps s s0 (keeps_nodes_alloc s _)).
  - split; [constructor|apply NoDup_nil_2].
  - apply not_elem_of_nil. }
destruct (sim_drain turns s0 [ {| parent := None; node := Some t |} ] []
            (length s) [])
  as (hm1 & s1 & Hdrain & Hmap1 & Hkeep1); [|done|].
{ unfold queue_size, entry_size. cbn. lia. }
fold (raw_dependencies t) in Hmap1.
assert (ObjectKeys.keys hm1 = ObjectKeys.keys (raw_dependencies t)) as Hkeys.
{ unfold ObjectKeys.keys.
  by rewrite (represents_map_keys s1 (raw_dependencies t) hm1). }
destruct (sim_close_loop passes _ s1 (raw_dependencies t) hm1 m Hmap1 Hpure)
  as (hm' & s' & Hloop & Hmap' & Hkeep').
exists hm', s'. split_and!.
- eapply run_bind; [reflexivity|]. eapply run_bind; [exact Hdrain|].
  by rewrite Hkeys.
- by apply represents_map_contents.
- eapply keeps_nodes_trans; [apply keeps_nodes_alloc|].
  by eapply keeps_nodes_trans.
Qed.

Lemma Store_extractDependencies_returns s t n :
represents s t n →
∃ hm s' m,
  Store.extractDependencies
    (S (node_size t)) (S (length (raw_dependencies t))) n s = Some (hm, s')
  ∧ extractDependencies t = Returned m
  ∧ Store.contents s' hm = m.
Proof.
intros Hrep. destruct (extractDependencies_returns t) as (m & Hm & _).
destruct (Store_extractDependencies_refines s t n
            (S (node_size t)) (S (length (raw_dependencies t))) m)
  as (hm & s' & Hrun & Hcontents & _); [done|lia|done|].
by exists hm, s', m.
Qed.

Section rewrite_returns.
Context {Options : Type}.
Context (comparator :
       Options → DataDependencyMap →
       option Store.Node → option Store.Node → Order).
Context (memberNodes : option Store.Node → bool).
Context (C_capture :
       (option Store.Node → bool) →
       (option Store.Node → option Store.Node → Order) →
       option Store.Node → option Store.Node → Order).
Context (Array_sort_by :
       (option Store.Node → option Store.Node → Order) →
       list (option Store.Node) → list (option Store.Node)).

Lemma Store_sorted_members_returns s t n options members hl :
  represents s t n → s !! members = Some (Store.Nodes hl) →
  is_Some (Store.sorted_members comparator memberNodes C_capture Array_sort_by
         (S (node_size t)) (S (length (raw_dependencies t)))
         options n members s).
Proof.
  intros Hrep Hmembers. unfold Store.sorted_members.
  set (s1 := s ++ [Store.Nodes hl]).
  destruct (extractDependencies_returns t) as (m & Hm & _).
  destruct (Store_extractDependencies_refines s1 t n
          (S (node_size t)) (S (length (raw_dependencies t))) m)
as (hm & s' & Hrun & _ & Hkeep); [|lia|done|].
  { by apply (represents_keeps s s1 (keeps_nodes_alloc s _)). }
  assert (s' !! length s = Some (Store.Nodes hl)) as Hcopy.
  { apply Hkeep. by apply list_lookup_middle. }
  eexists.
  eapply run_bind; [by apply run_read_nodes|].
  eapply run_bind; [reflexivity|].
  eapply run_bind; [exact Hrun|].
  eapply run_bind; [reflexivity|].
  eapply run_bind; [by apply run_read_nodes|].
  eapply run_bind; [apply run_write; by rewrite Hcopy|]. done.
Qed.

Lemma Store_preprocess_rewrite_returns s t n options :
  represents s t n →
  is_Some (Store.preprocess_rewrite comparator memberNodes C_capture
         Array_sort_by
         (S (node_size t)) (S (length (raw_dependencies t)))
         options n s).
Proof.
  intros Hrep. pose proof Hrep as Hnode.
  destruct Hrep; cbn [Store.preprocess_rewrite]; try by eexists.
  all: edestruct (Store_sorted_members_returns s _ _ options r hl Hnode)
     as [[copy s'] Hrun]; [done|];
   eexists; eapply run_bind; [exact Hrun|]; done.
Qed.
End rewrite_returns.

End refinement.

(** ** Declaration rewriter *)




Lemma stored_field_chain_represents :
  represents Sample.stored_members Sample.field_chain Sample.stored_field_chain.
Proof.
  eapply rep_ClassBody; [reflexivity|].
  repeat (constructor; [by repeat constructor|]). constructor.
Qed.


(** * Further properties *)

(** ** The nodes of a tree *)

Lemma bind_option_list (v : option Node) :
  option_list v ≫= nodes_of = from_option nodes_of [] v.
Proof. destruct v; cbn; [apply app_nil_r|done]. Qed.

Lemma bind_present (l : list (option Node)) :
  omap id l ≫= nodes_of = l ≫= from_option nodes_of [].
Proof.
  induction l as [|[x|] l IH]; cbn; [done| |done]. by rewrite IH.
Qed.

Lemma nodes_of_unfold n : nodes_of n = n :: (children n ≫= nodes_of).
Proof.
  destruct n; cbn [nodes_of children]; f_equal;
    rewrite ?bind_cons, ?bind_app, ?bind_option_list, ?bind_present, ?bind_nil,
      ?app_nil_r; try done.
Qed.

Lemma children_smaller n c : c ∈ children n → node_size c < node_size n.
Proof.
  assert (∀ l : list Node, c ∈ l → node_size c ≤ sum_list_with node_size l) as Hsum.
  { intros l Hc. induction Hc; cbn; lia. }
  destruct n; cbn [children node_size]; intros Hc;
    try (apply Hsum in Hc; lia); try (by apply elem_of_nil in Hc).
  - apply elem_of_cons in Hc as [->|Hc]; [lia|].
    destruct value; cbn in *; [apply list_elem_of_singleton in Hc as ->; lia|by apply elem_of_nil in Hc].
  - set_unfold. destruct Hc as [->|[->|[]]]; lia.
  - apply list_elem_of_omap in Hc as (o & Ho & Hc). cbn in Hc. subst o.
    assert (∀ l : list (option Node), Some c ∈ l →
              node_size c ≤ sum_list_with (from_option node_size 1) l) as Hopt.
    { induction l as [|o l IHl]; intros Hl; [by apply elem_of_nil in Hl|].
      apply elem_of_cons in Hl as [<-|Hl]; cbn; [lia|]. apply IHl in Hl. lia. }
    apply Hopt in Ho. lia.
  - apply elem_of_cons in Hc as [->|Hc]; [lia|]. apply Hsum in Hc. lia.
  - set_unfold. destruct Hc as [->|[->|[]]]; lia.
  - apply list_elem_of_singleton in Hc as ->. lia.
  - apply list_elem_of_singleton in Hc as ->. lia.
  - apply list_elem_of_singleton in Hc as ->. lia.
  - apply elem_of_app in Hc as [Hc|Hc]; [|apply Hsum in Hc; lia].
    destruct key; cbn in *; [apply list_elem_of_singleton in Hc as ->; lia|by apply elem_of_nil in Hc].
Qed.

Lemma nodes_of_here n : n ∈ nodes_of n.
Proof. rewrite nodes_of_unfold. left. Qed.

Lemma nodes_of_below root n c :
  n ∈ nodes_of root → c ∈ nodes_of n → c ∈ nodes_of root.
Proof.
  remember (node_size root) as size eqn:Hsize. revert root Hsize.
  induction (lt_wf size) as [size _ IH]. intros root -> Hn Hc.
  rewrite nodes_of_unfold in Hn. apply elem_of_cons in Hn as [->|Hn]; [done|].
  apply list_elem_of_bind in Hn as (c' & Hn & Hc').
  rewrite nodes_of_unfold. right. apply list_elem_of_bind. exists c'.
  split; [|done]. eapply IH; [|done..]. by apply children_smaller.
Qed.

Lemma nodes_of_child n c : c ∈ children n → c ∈ nodes_of n.
Proof.
  intros Hc. rewrite nodes_of_unfold. right. apply list_elem_of_bind.
  exists c. split; [apply nodes_of_here|done].
Qed.

(** *** What one turn pushes and records *)

Lemma visit_pushed cur m e :
  e ∈ (visit cur m).1 →
  ∃ cur_node, node cur = Some cur_node
    ∧ parent e = JS.or_else (parent cur) (extractName cur_node)
    ∧ ∀ c, node e = Some c → c ∈ nodes_of cur_node.
Proof.
  destruct cur as [p [n|]]; unfold visit; cbn [node parent];
    [|by intros ?%elem_of_nil].
  intros He. exists n. split; [done|].
  assert (∀ l : list Node,
            e ∈ queueEntryMapper {| parent := p; node := Some n |} n ∘ Some <$> l →
            (∀ c, c ∈ l → c ∈ nodes_of n) →
            parent e = JS.or_else p (extractName n)
            ∧ ∀ c, node e = Some c → c ∈ nodes_of n) as Hall.
  { intros l (c & -> & Hc)%list_elem_of_fmap Hl. split; [done|].
    intros c' [= <-]. by apply Hl. }
  destruct n; cbn [fst] in He; try (by apply elem_of_nil in He);
    try (apply Hall in He; [done|by (intros; apply nodes_of_child)]).
  - destruct value as [v|]; cbn [fst] in He; [|by apply elem_of_nil in He].
    apply list_elem_of_singleton in He as ->. split; [done|].
    intros c [= <-]. apply nodes_of_child. cbn. set_solver.
  - apply list_elem_of_singleton in He as ->. split; [done|].
    intros c [= <-]. apply nodes_of_child. cbn. set_solver.
  - apply list_elem_of_fmap in He as (o & -> & Ho). split; [done|].
    intros c [= ->]. apply nodes_of_child. cbn.
    apply list_elem_of_omap. by exists (Some c).
  - apply elem_of_app in He as [He|He].
    + destruct n; try (by apply elem_of_nil in He).
      apply list_elem_of_singleton in He as ->. split; [done|].
      intros c [= <-].
      lazymatch goal with
      | |- _ ∈ nodes_of (CallExpression ?callee _) =>
          apply (nodes_of_below _ callee)
      end; apply nodes_of_child; cbn; set_solver.
    + apply Hall in He; [done|]. intros c Hc. apply nodes_of_child. by right.
  - repeat case_match; cbn [fst] in He; try (by apply elem_of_nil in He).
    apply list_elem_of_singleton in He as ->. split; [done|].
    intros c [= <-]. apply nodes_of_child. cbn. set_solver.
  - apply list_elem_of_singleton in He as ->. split; [done|].
    intros c [= <-]. apply nodes_of_child. cbn. set_solver.
  - apply list_elem_of_singleton in He as ->. split; [done|].
    intros c [= <-]. apply nodes_of_child. cbn. set_solver.
Qed.

Lemma visit_records cur m :
  (visit cur m).2 = m
  ∨ ∃ p dep_name,
      parent cur = Some p ∧ p ≠ ""
      ∧ node cur = Some (MemberExpression ThisExpression (Identifier dep_name))
      ∧ (visit cur m).2 = record_dependency m p dep_name.
Proof.
  destruct cur as [p [n|]]; unfold visit; cbn [node parent]; [|by left].
  destruct n; try (by left); try (by (repeat case_match; left)).
  destruct n2 as [| | | | | | | | | | | |dep_name| | | | |]; try (by left).
  destruct n1; try (by left).
  destruct p as [p|]; [|by left]. unfold JS.truthy.
  case_bool_decide as Hp; cbn; [by left|]. right. by exists p, dep_name.
Qed.

(** An invariant of the queue entries and of the mapping that every turn
    keeps holds of the raw mapping. *)
Lemma drain_invariant (E : DependencyQueueEntry → Prop)
    (P : DataDependencyMap → Prop) :
  (∀ cur m, E cur → P m → Forall E (visit cur m).1 ∧ P (visit cur m).2) →
  ∀ q m, Forall E q → P m → P (drain q m).
Proof.
  intros Hstep q m. funelim (drain q m); [done|].
  intros [Hcur Hq]%Forall_cons HP.
  destruct (Hstep cur map Hcur HP) as [Hpushed HP'].
  apply (H E); [done| |done]. by apply Forall_app.
Qed.

(** *** Invariants of the raw mapping *)

Lemma get_record_dependency m p dep_name k :
  Dict.get (record_dependency m p dep_name) k
  = if bool_decide (p = k)
    then Some (default [] (Dict.get m p) ++ [pushed_name dep_name])
    else Dict.get m k.
Proof.
  unfold record_dependency. fold (pushed_name dep_name). case_bool_decide as Hk.
  - subst k. apply get_set_eq.
  - by apply get_set_ne.
Qed.

Lemma drain_entries_nonempty q m :
  (∀ k deps, Dict.get m k = Some deps → deps ≠ []) →
  ∀ k deps, Dict.get (drain q m) k = Some deps → deps ≠ [].
Proof.
  apply (drain_preserves (λ m, ∀ k deps, Dict.get m k = Some deps → deps ≠ [])).
  clear. intros m p d Hm k deps. rewrite get_record_dependency.
  case_bool_decide; [|by apply Hm]. intros [= <-]. by destruct (default _ _).
Qed.

Lemma drain_no_empty_key q m :
  Dict.get m "" = None → Dict.get (drain q m) "" = None.
Proof.
  intros Hm.
  apply (drain_invariant (λ _, True) (λ m, Dict.get m "" = None));
    [|by apply Forall_true|done].
  clear. intros cur m _ Hm. split; [by apply Forall_true|].
  destruct (visit_records cur m) as [->|(p & d & _ & Hp & _ & ->)]; [done|].
  rewrite get_record_dependency. by rewrite bool_decide_eq_false_2.
Qed.

Lemma or_else_Some a b p :
  JS.or_else a b = Some p → a = Some p ∨ b = Some p.
Proof. unfold JS.or_else. destruct (JS.truthy a); auto. Qed.

Lemma elem_of_names_of root n k :
  n ∈ nodes_of root → extractName n = Some k → k ∈ names_of root.
Proof. intros Hn Hk. apply list_elem_of_omap. by exists n. Qed.

Lemma elem_of_this_accesses root dep_name :
  MemberExpression ThisExpression (Identifier dep_name) ∈ nodes_of root →
  pushed_name dep_name ∈ this_accesses root.
Proof.
  intros Hn. apply list_elem_of_omap.
  by exists (MemberExpression ThisExpression (Identifier dep_name)).
Qed.

Lemma raw_dependencies_from_tree root k deps :
  Dict.get (raw_dependencies root) k = Some deps →
  k ∈ names_of root ∧ ∀ x, x ∈ deps → x ∈ this_accesses root.
Proof.
  revert k deps. unfold raw_dependencies.
  apply (drain_invariant
           (λ e, (∀ c, node e = Some c → c ∈ nodes_of root)
                 ∧ ∀ p, parent e = Some p → p ∈ names_of root)
           (λ m, ∀ k deps, Dict.get m k = Some deps →
                   k ∈ names_of root ∧ ∀ x, x ∈ deps → x ∈ this_accesses root)).
  - intros cur m [Hnode Hparent] Hm. split.
    + apply Forall_forall. intros e He.
      destruct (visit_pushed cur m e He) as (cur_node & Hcur & Hp & Hc).
      split.
      * intros c Hec. eapply nodes_of_below; [by apply Hnode|by apply Hc].
      * intros p Hep. rewrite Hp in Hep.
        apply or_else_Some in Hep as [Hep|Hep]; [by apply Hparent|].
        eapply elem_of_names_of; [by apply Hnode|done].
    + destruct (visit_records cur m) as [->|(p & d & Hp & _ & Hcur & ->)];
        [done|].
      intros k deps. rewrite get_record_dependency. case_bool_decide as Hk.
      * subst k. intros [= <-]. split; [by apply Hparent|].
        intros x [Hx|Hx]%elem_of_app;
          [|apply list_elem_of_singleton in Hx as ->].
        -- destruct (Dict.get m p) as [old|] eqn:Hold; cbn in Hx;
             [|by apply elem_of_nil in Hx].
           by apply (Hm p old).
        -- by apply elem_of_this_accesses, Hnode.
      * apply Hm.
  - constructor; [|constructor]. cbn. split.
    + intros c [= <-]. apply nodes_of_here.
    + done.
  - done.
Qed.

Lemma reach_last raw k x :
  reach raw k x → ∃ k' deps, Dict.get raw k' = Some deps ∧ x ∈ deps.
Proof.
  intros [mid Hc]. revert k Hc. induction mid as [|d mid IH]; intros k Hc.
  - destruct Hc as (deps & ? & ?). by exists k, deps.
  - destruct Hc as [_ Hc]. by apply (IH d).
Qed.

(** *** The returned mapping against the raw one *)

Lemma extractDependencies_spec root m :
  extractDependencies root = Returned m →
  let raw := raw_dependencies root in
  same_keys raw m ∧ sound raw m ∧ closed m
  ∧ (∀ k, clean_at m k) ∧ (∀ k, complete_at raw 1 m k).
Proof.
  intros Hrun. destruct (extractDependencies_returns root) as (m' & Hrun' & H).
  rewrite Hrun in Hrun'. by injection Hrun' as <-.
Qed.

(** X1. Every entry of the returned mapping holds at least one name: a
    property of [map] is created only to receive a [push], and the closure
    never empties an array. *)
Theorem extractDependencies_entries_nonempty (root : Node) (m : DataDependencyMap) :
  extractDependencies root = Returned m →
  ∀ k deps, Dict.get m k = Some deps → deps ≠ [].
Proof.
  intros (Hkeys & _ & _ & _ & Hedges)%extractDependencies_spec k deps Hget.
  destruct (proj1 (Hkeys k)) as [raw_deps Hraw]; [by eexists|].
  pose proof (drain_entries_nonempty _ [] ltac:(done) k raw_deps Hraw) as Hne.
  destruct raw_deps as [|x raw_deps]; [done|].
  destruct (Hedges k [] x) as (deps' & Hget' & Hx); [cbn; lia| |].
  { exists (x :: raw_deps). split; [done|left]. }
  assert (deps' = deps) as -> by congruence. intros ->. by apply elem_of_nil in Hx.
Qed.

Lemma extractDependencies_entries_nonempty_witness :
  extractDependencies Sample.field_chain
  = Returned [("c", ["a"]); ("b", ["a"; "c"])]
  ∧ ["a"; "c"] ≠ [].
Proof.
  split; [reflexivity|].
  apply (extractDependencies_entries_nonempty Sample.field_chain
           [("c", ["a"]); ("b", ["a"; "c"])] eq_refl "b"). reflexivity.
Defined.

(** X2. The returned mapping has no entry under the empty name: an empty
    [cur.parent] is falsy, so the guard [if (cur.parent)] skips the push and
    the descendants of a member named [''] look for a parent further down. *)
Theorem extractDependencies_no_empty_key (root : Node) (m : DataDependencyMap) :
  extractDependencies root = Returned m → Dict.get m "" = None.
Proof.
  intros (Hkeys & _)%extractDependencies_spec.
  destruct (Dict.get m "") as [deps|] eqn:Hget; [|done].
  destruct (proj1 (Hkeys "")) as [raw_deps Hraw]; [by eexists|].
  unfold raw_dependencies in Hraw. by rewrite drain_no_empty_key in Hraw.
Qed.

Lemma extractDependencies_no_empty_key_witness :
  extractDependencies
    (ClassBody Sample.base
       [PropertyDefinition (Literal (LString "")) false (Some (Sample.this_ "a"));
        Sample.field "b" (Sample.this_ "a")])
  = Returned [("b", ["a"])]
  ∧ Dict.get [("b", ["a"])] "" = None.
Proof.
  split; [reflexivity|].
  apply (extractDependencies_no_empty_key
           (ClassBody Sample.base
              [PropertyDefinition (Literal (LString "")) false
                 (Some (Sample.this_ "a"));
               Sample.field "b" (Sample.this_ "a")])).
  reflexivity.
Defined.



(** X4. A declaration in which nothing is read through [this] yields the
    empty mapping. *)
Theorem extractDependencies_without_this (root : Node) :
  this_accesses root = [] → extractDependencies root = Returned [].
Proof.
  intros Hnone. unfold extractDependencies, extractDependencies_within.
  assert (raw_dependencies root = []) as ->; [|done].
  destruct (raw_dependencies root) as [|[k deps] raw] eqn:Hraw; [done|].
  assert (Dict.get (raw_dependencies root) k = Some deps) as Hget.
  { rewrite Hraw. cbn. by rewrite bool_decide_eq_true_2. }
  destruct (raw_dependencies_from_tree root k deps Hget) as [_ Hdeps].
  pose proof (drain_entries_nonempty _ [] ltac:(done) k deps Hget) as Hne.
  destruct deps as [|x deps]; [done|].
  specialize (Hdeps x ltac:(left)). rewrite Hnone in Hdeps.
  by apply elem_of_nil in Hdeps.
Qed.

Lemma extractDependencies_without_this_witness :
  extractDependencies
    (ClassBody Sample.base
       [Sample.field "a" Sample.one;
        Sample.field "b" (CallExpression (Identifier "f") [Identifier "a"])])
  = Returned [].
Proof.
  apply (extractDependencies_without_this
           (ClassBody Sample.base
              [Sample.field "a" Sample.one;
               Sample.field "b"
                 (CallExpression (Identifier "f") [Identifier "a"])])).
  reflexivity.
Defined.

(** *** Who the dependencies are attributed to *)

Lemma drain_cons cur q m :
  drain (cur :: q) m = drain (q ++ (visit cur m).1) (visit cur m).2.
Proof. by simp drain. Qed.

Lemma raw_dependencies_body root :
  declaration_body root = true →
  raw_dependencies root
  = drain ((λ n, {| parent := None; node := Some n |}) <$> children root) [].
Proof.
  intros Hroot. unfold raw_dependencies. rewrite drain_cons.
  by destruct root.
Qed.

Lemma truthy_Some p : JS.truthy (Some p) = true ↔ p ≠ "".
Proof.
  unfold JS.truthy. case_bool_decide; cbn; split; done.
Qed.

Lemma raw_dependencies_keys_are_members root k :
  declaration_body root = true →
  (∀ member, member ∈ children root → JS.truthy (extractName member) = true) →
  is_Some (Dict.get (raw_dependencies root) k) →
  k ∈ omap extractName (children root).
Proof.
  intros Hroot Hnamed. rewrite raw_dependencies_body by done. revert k.
  apply (drain_invariant
           (λ e, match parent e with
                 | None => ∃ n, node e = Some n ∧ n ∈ children root
                 | Some p => p ≠ "" ∧ p ∈ omap extractName (children root)
                 end)
           (λ m, ∀ k, is_Some (Dict.get m k) →
                   k ∈ omap extractName (children root))).
  - intros cur m Hcur Hm. split.
    + apply Forall_forall. intros e He.
      destruct (visit_pushed cur m e He) as (cur_node & Hnode & -> & _).
      destruct (parent cur) as [p|] eqn:Hp.
      * destruct Hcur as [Hne Hin]. unfold JS.or_else.
        by rewrite (proj2 (truthy_Some p) Hne).
      * destruct Hcur as (n & Hn & Hin). assert (n = cur_node) as -> by congruence.
        specialize (Hnamed cur_node Hin). cbn.
        destruct (extractName cur_node) as [a|] eqn:Ha; [|done].
        split; [by apply truthy_Some|]. apply list_elem_of_omap. by exists cur_node.
    + destruct (visit_records cur m) as [->|(p & d & Hp & _ & _ & ->)]; [done|].
      intros k. rewrite get_record_dependency. case_bool_decide as Hk; [|apply Hm].
      subst k. intros _. rewrite Hp in Hcur. apply Hcur.
  - apply Forall_forall. intros e (n & -> & Hn)%list_elem_of_fmap. by exists n.
  - by intros k [? ?].
Qed.

(** X5. When every member of a declaration body has a non-empty name, the
    keys of the returned mapping are names of members: whatever is read
    through [this] below a member, inside nested object literals included,
    is attributed to that member. *)
Theorem extractDependencies_keys_are_members (root : Node) (m : DataDependencyMap) :
  declaration_body root = true →
  (∀ member, member ∈ children root → JS.truthy (extractName member) = true) →
  extractDependencies root = Returned m →
  ∀ k, is_Some (Dict.get m k) → k ∈ omap extractName (children root).
Proof.
  intros Hroot Hnamed (Hkeys & _)%extractDependencies_spec k Hk.
  apply raw_dependencies_keys_are_members; [done..|]. by apply Hkeys.
Qed.

Lemma extractDependencies_keys_are_members_witness :
  extractDependencies
    (ClassBody Sample.base
       [Sample.field "a"
          (ObjectExpression
             [Property (Identifier "x") false (Sample.this_ "b")]);
        Sample.field "b" Sample.one])
  = Returned [("a", ["b"])]
  ∧ "a" ∈ ["a"; "b"].
Proof.
  split; [reflexivity|].
  apply (extractDependencies_keys_are_members
           (ClassBody Sample.base
              [Sample.field "a"
                 (ObjectExpression
                    [Property (Identifier "x") false (Sample.this_ "b")]);
               Sample.field "b" Sample.one])
           [("a", ["b"])] eq_refl).
  - intros member Hmember. cbn in Hmember.
    apply elem_of_cons in Hmember as [->|Hmember]; [reflexivity|].
    apply list_elem_of_singleton in Hmember as ->. reflexivity.
  - reflexivity.
  - by eexists.
Defined.

(** *** Nodes without a case *)

Lemma visit_not_live cur m : live cur = false → visit cur m = ([], m).
Proof.
  destruct cur as [p [n|]]; unfold live, visit; cbn; [|done].
  by destruct n.
Qed.

Lemma queue_size_filter q : queue_size (filter live q) ≤ queue_size q.
Proof.
  unfold queue_size. induction q as [|e q IH]; [done|].
  rewrite filter_cons. destruct (decide (live e)); cbn; lia.
Qed.

Lemma entry_size_pos e : 0 < entry_size e.
Proof. destruct e as [p [[]|]]; cbn; lia. Qed.

Lemma drain_filter q m : drain (filter live q) m = drain q m.
Proof.
  remember (queue_size q) as size eqn:Hsize. revert q m Hsize.
  induction (lt_wf size) as [size _ IH]. intros [|cur q] m ->; [done|].
  rewrite filter_cons, (drain_cons cur q).
  pose proof (visit_decreases cur m) as Hvisit.
  assert (queue_size (cur :: q) = entry_size cur + queue_size q) as Hcons by done.
  assert (∀ q1 q2, queue_size (q1 ++ q2) = queue_size q1 + queue_size q2) as Happ.
  { intros q1 q2. unfold queue_size. apply sum_list_with_app. }
  destruct (decide (live cur)) as [Hlive|Hlive].
  - rewrite drain_cons.
    rewrite <-(IH (queue_size (filter live q ++ (visit cur m).1)))
      with (q := filter live q ++ (visit cur m).1); [|..|done].
    + rewrite <-(IH (queue_size (q ++ (visit cur m).1)))
        with (q := q ++ (visit cur m).1); [|..|done].
      * by rewrite !filter_app, list_filter_filter_l.
      * rewrite Happ, Hcons. lia.
    + pose proof (queue_size_filter q). rewrite Happ, Hcons. lia.
  - apply Is_true_false in Hlive. rewrite (visit_not_live cur m Hlive). cbn.
    rewrite app_nil_r. apply (IH (queue_size q)); [|done].
    pose proof (entry_size_pos cur). rewrite Hcons. lia.
Qed.

Lemma raw_dependencies_filter root filtered :
  declaration_body root = true → declaration_body filtered = true →
  children filtered = filter has_case (children root) →
  raw_dependencies filtered = raw_dependencies root.
Proof.
  intros Hroot Hfiltered Hchildren.
  rewrite !raw_dependencies_body, Hchildren by done.
  rewrite <-(drain_filter (_ <$> children root)). f_equal.
  clear. induction (children root) as [|n l IH]; [done|].
  rewrite fmap_cons, !filter_cons. cbn.
  destruct (decide (has_case n)); cbn; by rewrite IH.
Qed.

(** X6. Members of a kind the traversal has no case for (methods,
    accessors, signatures, ...) contribute nothing: the declaration without
    them yields the same mapping. *)
Theorem extractDependencies_skips_other_members (base : BaseNode) (members : list Node) :
  extractDependencies (ClassBody base (filter has_case members))
  = extractDependencies (ClassBody base members)
  ∧ extractDependencies (TSInterfaceBody base (filter has_case members))
    = extractDependencies (TSInterfaceBody base members)
  ∧ extractDependencies (TSTypeLiteral base (filter has_case members))
    = extractDependencies (TSTypeLiteral base members).
Proof.
  unfold extractDependencies, extractDependencies_within.
  split_and!.
  - by rewrite (raw_dependencies_filter (ClassBody base members)
                  (ClassBody base (filter has_case members))).
  - by rewrite (raw_dependencies_filter (TSInterfaceBody base members)
                  (TSInterfaceBody base (filter has_case members))).
  - by rewrite (raw_dependencies_filter (TSTypeLiteral base members)
                  (TSTypeLiteral base (filter has_case members))).
Qed.

(** *** The pushed name *)

Lemma endsWith_question d : JS.endsWith (d +:+ "?") "?" = true.
Proof.
  induction d as [|a d IH]; [done|].
  change (String a d +:+ "?") with (String a (d +:+ "?")).
  destruct (d +:+ "?") eqn:Hd; [by destruct d|]. exact IH.
Qed.

Lemma slice_question d : JS.slice_0_m1 (d +:+ "?") = d.
Proof.
  induction d as [|a d IH]; [done|].
  change (String a d +:+ "?") with (String a (d +:+ "?")).
  destruct (d +:+ "?") eqn:Hd; [by destruct d|]. cbn in *. by rewrite IH.
Qed.



(** *** The closure against the recorded edges *)



Lemma close_key_own_keys m k m' b :
  close_key m k = Some (m', b) → Dict.own_keys m' = Dict.own_keys m.
Proof.
  unfold close_key. destruct (Dict.get m k) as [deps|] eqn:Hget; [|done].
  cbn. intros [= <- _].
  assert (∀ v, Dict.own_keys (Dict.set m k v) = Dict.own_keys m) as Hset.
  { intros v. by rewrite own_keys_set, Hget. }
  destruct (_ || _); [|apply Hset].
  by rewrite own_keys_set, get_set_eq, Hset.
Qed.

Lemma close_keys_own_keys keys m modified m' modified' :
  close_keys keys m modified = Some (m', modified') →
  Dict.own_keys m' = Dict.own_keys m.
Proof.
  revert m modified. induction keys as [|k keys IH]; intros m modified; cbn.
  - by intros [= <- _].
  - destruct (close_key m k) as [[m1 b]|] eqn:Hstep; [|done].
    intros Hrest%IH. by rewrite Hrest, (close_key_own_keys m k m1 b).
Qed.

Lemma close_loop_own_keys passes keys m m' :
  close_loop passes keys m = Returned m' →
  Dict.own_keys m' = Dict.own_keys m.
Proof.
  revert m. induction passes as [|passes IH]; intros m; cbn; [done|].
  destruct (close_keys keys m false) as [[m1 modified]|] eqn:Hpass; [|done].
  apply close_keys_own_keys in Hpass. destruct modified.
  - intros Hrest%IH. congruence.
  - intros [= <-]. done.
Qed.

(** X9. The closure creates no property and removes none: the returned
    mapping has the keys of the raw mapping, in the order in which the
    traversal created them.  A name that only occurs as a dependency never
    becomes a key. *)
Theorem extractDependencies_keeps_keys (root : Node) (m : DataDependencyMap) :
  extractDependencies root = Returned m →
  Dict.own_keys m = Dict.own_keys (raw_dependencies root).
Proof.
  unfold extractDependencies, extractDependencies_within. intros Hrun.
  by apply close_loop_own_keys in Hrun.
Qed.

Lemma extractDependencies_keeps_keys_witness :
  raw_dependencies Sample.field_chain = [("c", ["a"]); ("b", ["c"])]
  ∧ Dict.own_keys [("c", ["a"]); ("b", ["a"; "c"])]
    = Dict.own_keys (raw_dependencies Sample.field_chain).
Proof.
  split; [reflexivity|].
  apply (extractDependencies_keeps_keys Sample.field_chain). reflexivity.
Defined.

(** X10. No returned set is larger than the number of names involved in the
    raw mapping. *)
Theorem extractDependencies_set_size (root : Node) (m : DataDependencyMap) :
  extractDependencies root = Returned m →
  ∀ k deps, Dict.get m k = Some deps →
    length deps ≤ length (names_involved (raw_dependencies root)).
Proof.
  intros (_ & Hsound & _ & Hclean & _)%extractDependencies_spec k deps Hget.
  apply submseteq_length, NoDup_submseteq; [by apply (Hclean k)|].
  intros x Hx.
  destruct (reach_last _ k x (Hsound k deps x Hget Hx))
    as (k' & raw_deps & Hraw & Hx').
  unfold names_involved. rewrite elem_of_remove_dups, elem_of_app. right.
  apply list_elem_of_join. exists raw_deps. split; [done|].
  apply list_elem_of_fmap. exists (k', raw_deps). split; [done|].
  clear -Hraw. induction (raw_dependencies root) as [|[k1 v1] raw IH];
    cbn in *; [done|].
  case_bool_decide; [injection Hraw as ->; subst; left|right; by apply IH].
Qed.

Lemma extractDependencies_set_size_witness :
  length (names_involved (raw_dependencies Sample.field_chain)) = 3
  ∧ length ["a"; "c"] ≤ length (names_involved (raw_dependencies Sample.field_chain)).
Proof.
  split; [reflexivity|].
  apply (extractDependencies_set_size Sample.field_chain
           [("c", ["a"]); ("b", ["a"; "c"])] eq_refl "b"). reflexivity.
Defined.

(** ** Ordering comparator: the remaining branches *)

Lemma indexOf_missing_iff l name :
  JS.indexOf l name = (-1)%Z ↔ ∀ s, name = Some s → s ∉ l.
Proof.
  destruct name as [s|]; cbn; [|done]. split.
  - intros Hidx s' [= <-] Hin. pose proof (indexOf_from_found 0 l s Hin). lia.
  - intros Hnin. by apply indexOf_from_missing, Hnin.
Qed.

Lemma indexOf_found_iff l s :
  JS.indexOf l (Some s) ≠ (-1)%Z ↔ s ∈ l.
Proof.
  rewrite indexOf_missing_iff. split.
  - intros Hfound. destruct (decide (s ∈ l)) as [|Hnin]; [done|].
    destruct Hfound. by intros s' [= <-].
  - intros Hin Hnin. by apply (Hnin s).
Qed.

Lemma length_zero_nil (l : list string) : length l = 0 ↔ l = [].
Proof. by destruct l. Qed.

(** The branches of the comparison, by the facts that select them. *)
Lemma compare_resolved_Greater_dependent a b s :
  name b = Some s → s ∈ dependencies a → compare_resolved a b = Greater.
Proof.
  intros Hb Hin. unfold compare_resolved. rewrite Hb.
  pose proof (proj2 (indexOf_found_iff _ _) Hin).
  destruct (dependencies a); [by apply elem_of_nil in Hin|]. cbn [length].
  rewrite (bool_decide_eq_false_2 (S _ = 0)) by done. cbn [andb].
  by rewrite (bool_decide_eq_false_2 (_ = (-1)%Z)).
Qed.

Lemma compare_resolved_independent a b :
  ¬ (dependencies a = [] ∧ dependencies b = []) →
  (∀ s, name b = Some s → s ∉ dependencies a) →
  compare_resolved a b
  = if bool_decide (JS.indexOf (dependencies b) (name a) = (-1)%Z)
    then if bool_decide (length (dependencies a) ≤ length (dependencies b))
         then Less else Greater
    else Less.
Proof.
  intros Hne Hab%indexOf_missing_iff. unfold compare_resolved.
  rewrite Hab. rewrite <-!length_zero_nil in Hne.
  repeat (case_bool_decide; cbn [andb negb]); try done; lia.
Qed.




(** X13. When [b] depends on [a] and [a] does not depend on [b], [a] is
    ordered before [b], in whichever order the two are handed over. *)
Theorem dataDependency_dependency_first
    (dependencyMap : DataDependencyMap) (a b : Node) (name_a : string) :
  extractName a = Some name_a →
  name_a ∈ dependencies (resolve dependencyMap b) →
  (∀ name_b, extractName b = Some name_b →
     name_b ∉ dependencies (resolve dependencyMap a)) →
  dataDependency dependencyMap a b = Less
  ∧ dataDependency dependencyMap b a = Greater.
Proof.
  intros Ha Hin Hnot. unfold dataDependency, C_by. split.
  - rewrite compare_resolved_independent; [|intros [_ Hb]|done].
    + rewrite bool_decide_eq_false_2; [done|].
      change (name (resolve dependencyMap a)) with (extractName a).
      rewrite Ha. by apply indexOf_found_iff.
    + rewrite Hb in Hin. by apply elem_of_nil in Hin.
  - by apply (compare_resolved_Greater_dependent _ _ name_a).
Qed.

Lemma dataDependency_dependency_first_witness :
  dataDependency [("b", ["a"])]
    (Sample.field "a" Sample.one) (Sample.field "b" (Sample.this_ "a")) = Less
  ∧ dataDependency [("b", ["a"])]
      (Sample.field "b" (Sample.this_ "a")) (Sample.field "a" Sample.one)
    = Greater.
Proof.
  apply (dataDependency_dependency_first [("b", ["a"])]
           (Sample.field "a" Sample.one) (Sample.field "b" (Sample.this_ "a"))
           "a"); [reflexivity|by apply list_elem_of_singleton|].
  intros name_b _. apply not_elem_of_nil.
Defined.

(** X14. Two members that depend on each other are each ordered after the
    other: on a dependency cycle the comparator answers [Greater] for both
    orders of its arguments. *)
Theorem dataDependency_cycle_greater_both_ways
    (dependencyMap : DataDependencyMap) (a b : Node) (name_a name_b : string) :
  extractName a = Some name_a →
  extractName b = Some name_b →
  name_b ∈ dependencies (resolve dependencyMap a) →
  name_a ∈ dependencies (resolve dependencyMap b) →
  dataDependency dependencyMap a b = Greater
  ∧ dataDependency dependencyMap b a = Greater.
Proof.
  intros Ha Hb Hab Hba. unfold dataDependency, C_by. split.
  - by apply (compare_resolved_Greater_dependent _ _ name_b).
  - by apply (compare_resolved_Greater_dependent _ _ name_a).
Qed.

Lemma dataDependency_cycle_greater_both_ways_witness :
  dataDependency [("a", ["a"; "b"]); ("b", ["a"; "b"])]
    (Sample.field "a" (Sample.this_ "b")) (Sample.field "b" (Sample.this_ "a"))
  = Greater
  ∧ dataDependency [("a", ["a"; "b"]); ("b", ["a"; "b"])]
      (Sample.field "b" (Sample.this_ "a")) (Sample.field "a" (Sample.this_ "b"))
    = Greater.
Proof.
  apply (dataDependency_cycle_greater_both_ways
           [("a", ["a"; "b"]); ("b", ["a"; "b"])]
           (Sample.field "a" (Sample.this_ "b"))
           (Sample.field "b" (Sample.this_ "a")) "a" "b");
    try reflexivity; vm_compute; set_solver.
Defined.



(** ** From the declaration to the order of its members *)

Lemma edge_record_dependency m p dep_name :
  edge (record_dependency m p dep_name) p (pushed_name dep_name).
Proof.
  eexists. rewrite get_record_dependency, bool_decide_eq_true_2 by done.
  split; [done|]. apply elem_of_app. right. by apply list_elem_of_singleton.
Qed.

Lemma drain_edge_kept q m k d : edge m k d → edge (drain q m) k d.
Proof.
  apply (drain_preserves (λ m, edge m k d)). clear.
  intros m p dep_name (deps & Hget & Hd). unfold edge.
  rewrite get_record_dependency. case_bool_decide as Hp; [|by exists deps].
  subst p. rewrite Hget. eexists. split; [done|]. apply elem_of_app. by left.
Qed.

(** Every entry of the queue gets its turn. *)
Lemma drain_turn q m e :
  e ∈ q →
  ∃ q' m', drain q m = drain (q' ++ (visit e m').1) (visit e m').2.
Proof.
  funelim (drain q m); [by intros ?%elem_of_nil|].
  intros [->|He]%elem_of_cons.
  - by exists q, map.
  - apply H. apply elem_of_app. by left.
Qed.

Lemma drain_records_access q m e p dep_name :
  e ∈ q → parent e = Some p → p ≠ "" →
  node e = Some (MemberExpression ThisExpression (Identifier dep_name)) →
  edge (drain q m) p (pushed_name dep_name).
Proof.
  intros He Hp Hne Hnode. destruct (drain_turn q m e He) as (q' & m' & ->).
  apply drain_edge_kept. destruct e as [parent_e node_e]. cbn in Hp, Hnode.
  subst parent_e node_e. unfold visit. cbn [node parent].
  rewrite (proj2 (truthy_Some p) Hne). apply edge_record_dependency.
Qed.

Lemma raw_dependencies_field_reads_this root key computed dep_name a :
  declaration_body root = true →
  let member :=
    PropertyDefinition key computed
      (Some (MemberExpression ThisExpression (Identifier dep_name))) in
  member ∈ children root →
  extractName member = Some a → a ≠ "" →
  edge (raw_dependencies root) a (pushed_name dep_name).
Proof.
  intros Hroot member Hmember Ha Hne. rewrite raw_dependencies_body by done.
  destruct (drain_turn
              ((λ n, {| parent := None; node := Some n |}) <$> children root) []
              {| parent := None; node := Some member |})
    as (q' & m' & ->).
  { apply list_elem_of_fmap. by exists member. }
  apply (drain_records_access _ _
           {| parent := Some a;
              node := Some (MemberExpression ThisExpression (Identifier dep_name)) |});
    [|done..].
  apply elem_of_app. right. unfold visit. cbn [node parent fst].
  unfold queueEntryMapper. cbn [parent]. rewrite Ha. apply list_elem_of_singleton.
  done.
Qed.

Lemma extractDependencies_resolve root m a name_a name_b :
  extractDependencies root = Returned m →
  extractName a = Some name_a →
  reach (raw_dependencies root) name_a name_b →
  name_b ∈ dependencies (resolve m a).
Proof.
  intros (Hkeys & _ & Hclosed & _ & Hedges)%extractDependencies_spec Ha Hreach.
  destruct (closed_contains_reach _ m name_a name_b Hclosed Hedges Hreach)
    as (deps & Hget & Hin).
  assert (name_a ≠ "") as Hne.
  { intros ->. destruct (proj1 (Hkeys "")) as [raw_deps Hraw]; [by eexists|].
    unfold raw_dependencies in Hraw. by rewrite drain_no_empty_key in Hraw. }
  unfold resolve. rewrite Ha. cbn [dependencies].
  by rewrite (proj2 (truthy_Some name_a) Hne), Hget.
Qed.





(** ** Declaration rewriter: the members *)



(** ** The arrays of the returned mapping *)

Lemma Store_extractDependencies_represents s t n turns passes m :
  represents s t n → node_size t < turns →
  extractDependencies_within passes t = Returned m →
  ∃ hm s', Store.extractDependencies turns passes n s = Some (hm, s')
           ∧ represents_map s' m hm.
Proof.
  intros Hrep Hturns Hpure. unfold extractDependencies_within in Hpure.
  unfold Store.extractDependencies.
  set (root := {| Store.parent := None; Store.node := Some n |}).
  set (s0 := s ++ [Store.Entries [root]]).
  assert (represents_state s0 [ {| parent := None; node := Some t |} ] []
            (length s) []) as Hstate.
  { split_and!.
    - exists [root]. split; [by apply list_lookup_middle|].
      constructor; [|constructor]. split; [done|]. constructor.
      by apply (represents_keeps s s0 (keeps_nodes_alloc s _)).
    - split; [constructor|apply NoDup_nil_2].
    - apply not_elem_of_nil. }
  destruct (sim_drain turns s0 [ {| parent := None; node := Some t |} ] []
              (length s) [])
    as (hm1 & s1 & Hdrain & Hmap1 & _); [|done|].
  { unfold queue_size, entry_size. cbn. lia. }
  fold (raw_dependencies t) in Hmap1.
  assert (ObjectKeys.keys hm1 = ObjectKeys.keys (raw_dependencies t)) as Hkeys.
  { unfold ObjectKeys.keys.
    by rewrite (represents_map_keys s1 (raw_dependencies t) hm1). }
  destruct (sim_close_loop passes _ s1 (raw_dependencies t) hm1 m Hmap1 Hpure)
    as (hm' & s' & Hloop & Hmap' & _).
  exists hm', s'. split; [|done].
  eapply run_bind; [reflexivity|]. eapply run_bind; [exact Hdrain|].
  by rewrite Hkeys.
Qed.



(** ** The order of the members *)

Lemma visit_pushed_any_map cur m m' : (visit cur m).1 = (visit cur m').1.
Proof.
  destruct cur as [p [n|]]; unfold visit; cbn [node parent]; [|done].
  destruct n; try done; repeat case_match; done.
Qed.

Lemma visit_map_shape cur :
  (∀ m, (visit cur m).2 = m)
  ∨ ∃ p dep_name, ∀ m, (visit cur m).2 = record_dependency m p dep_name.
Proof.
  destruct cur as [p [n|]]; unfold visit; cbn [node parent]; [|by left].
  destruct n; try (by left); try (left; intros m; by repeat case_match).
  destruct n2 as [| | | | | | | | | | | |dep_name| | | | |]; try (by left).
  destruct n1; try (by left).
  destruct p as [p|]; [|by left].
  destruct (JS.truthy (Some p)); [|by left]. right. by exists p, dep_name.
Qed.

Lemma edge_record_dependency_iff m p dep_name k d :
  edge (record_dependency m p dep_name) k d
  ↔ edge m k d ∨ (k = p ∧ d = pushed_name dep_name).
Proof.
  unfold edge. rewrite get_record_dependency. case_bool_decide as Hp.
  - subst k. split.
    + intros (deps & [= <-] & [Hd|Hd]%elem_of_app).
      * left. destruct (Dict.get m p) as [old|]; [by exists old|].
        by apply elem_of_nil in Hd.
      * right. by apply list_elem_of_singleton in Hd.
    + intros [(deps & Hget & Hd)|[_ ->]]; eexists; (split; [done|]).
      * rewrite Hget. apply elem_of_app. by left.
      * apply elem_of_app. right. by apply list_elem_of_singleton.
  - split; [by left|]. by intros [?|[-> _]].
Qed.

Lemma visit_edges cur m k d :
  edge (visit cur m).2 k d ↔ edge m k d ∨ edge (visit cur []).2 k d.
Proof.
  destruct (visit_map_shape cur) as [Hsame|(p & dep_name & Hrecord)].
  - rewrite !Hsame. split; [by left|]. by intros [?|(? & ? & ?)].
  - rewrite !Hrecord, !edge_record_dependency_iff. split.
    + intros [?|?]; [by left|by right; right].
    + intros [?|[(? & ? & ?)|?]]; [by left|done|by right].
Qed.

(** The edges recorded from a queue are those recorded from its entries,
    one by one. *)
Lemma drain_edges q m k d :
  edge (drain q m) k d
  ↔ edge m k d ∨ ∃ e, e ∈ q ∧ edge (drain [e] []) k d.
Proof.
  remember (queue_size q) as size eqn:Hsize. revert q m Hsize.
  induction (lt_wf size) as [size _ IH]. intros [|cur q] m ->.
  { split; [by left|]. by intros [?|(e & ?%elem_of_nil & _)]. }
  pose proof (visit_decreases cur m) as Hvisit.
  assert (queue_size (cur :: q) = entry_size cur + queue_size q) as Hcons by done.
  assert (∀ q1 q2, queue_size (q1 ++ q2) = queue_size q1 + queue_size q2) as Happ.
  { intros q1 q2. unfold queue_size. apply sum_list_with_app. }
  assert (edge (drain [cur] []) k d
          ↔ edge (visit cur []).2 k d
            ∨ ∃ e, e ∈ (visit cur m).1 ∧ edge (drain [e] []) k d) as Hcur.
  { rewrite drain_cons. cbn [app].
    rewrite (visit_pushed_any_map cur [] m).
    apply (IH (queue_size (visit cur m).1)); [lia|done]. }
  rewrite drain_cons.
  rewrite (IH (queue_size (q ++ (visit cur m).1)));
    [|rewrite Happ; lia|done].
  rewrite visit_edges. split.
  - intros [[?|?]|(e & [He|He]%elem_of_app & Hedge)].
    + by left.
    + right. exists cur. split; [left|]. apply Hcur. by left.
    + right. exists e. split; [by right|done].
    + right. exists cur. split; [left|]. apply Hcur. right. by exists e.
  - intros [?|(e & [->|He]%elem_of_cons & Hedge)].
    + by left; left.
    + apply Hcur in Hedge as [?|(e & He & Hedge)]; [by left; right|].
      right. exists e. split; [|done]. apply elem_of_app. by right.
    + right. exists e. split; [|done]. apply elem_of_app. by left.
Qed.

Lemma raw_dependencies_edges_permutation root root' k d :
  declaration_body root = true → declaration_body root' = true →
  children root ≡ₚ children root' →
  edge (raw_dependencies root) k d → edge (raw_dependencies root') k d.
Proof.
  intros Hroot Hroot' Hperm. rewrite !raw_dependencies_body by done.
  rewrite !drain_edges. intros [?|(e & He & Hedge)]; [by left|].
  right. exists e. split; [|done]. by rewrite <-Hperm.
Qed.

Lemma chain_same_edges raw raw' k mid x :
  (∀ k d, edge raw k d → edge raw' k d) →
  chain raw k mid x → chain raw' k mid x.
Proof.
  intros Hedges. revert k. induction mid as [|d mid IH]; intros k; cbn.
  - apply Hedges.
  - intros [He Hc]. split; [by apply Hedges|by apply IH].
Qed.

Lemma raw_entry_edge root k :
  is_Some (Dict.get (raw_dependencies root) k)
  ↔ ∃ d, edge (raw_dependencies root) k d.
Proof.
  split.
  - intros [deps Hget].
    pose proof (drain_entries_nonempty _ [] ltac:(done) k deps Hget) as Hne.
    destruct deps as [|d deps]; [done|]. exists d, (d :: deps). split; [done|left].
  - intros (d & deps & Hget & _). by exists deps.
Qed.

Lemma extractDependencies_same_edges root root' m m' k :
  (∀ k d, edge (raw_dependencies root) k d → edge (raw_dependencies root') k d) →
  (∀ k d, edge (raw_dependencies root') k d → edge (raw_dependencies root) k d) →
  extractDependencies root = Returned m →
  extractDependencies root' = Returned m' →
  Dict.get m k = Dict.get m' k.
Proof.
  intros Hto Hfrom (Hkeys & Hsound & Hclosed & Hclean & Hedges)%extractDependencies_spec
    (Hkeys' & Hsound' & Hclosed' & Hclean' & Hedges')%extractDependencies_spec.
  assert (is_Some (Dict.get m k) ↔ is_Some (Dict.get m' k)) as Hsame.
  { rewrite (Hkeys k), (Hkeys' k), !raw_entry_edge.
    split; intros [d Hd]; exists d; auto. }
  destruct (Dict.get m k) as [deps|] eqn:Hget,
           (Dict.get m' k) as [deps'|] eqn:Hget'.
  - f_equal. destruct (Hclean k deps Hget) as [Hnd Hsorted].
    destruct (Hclean' k deps' Hget') as [Hnd' Hsorted'].
    apply (Sorted_unique String.le); [done..|].
    apply NoDup_Permutation; [done..|]. intros x. split.
    + intros [mid Hc]%(Hsound k deps x Hget).
      destruct (closed_contains_reach _ m' k x Hclosed' Hedges')
        as (deps2 & ? & ?); [|congruence].
      exists mid. by apply (chain_same_edges (raw_dependencies root)).
    + intros [mid Hc]%(Hsound' k deps' x Hget').
      destruct (closed_contains_reach _ m k x Hclosed Hedges)
        as (deps2 & ? & ?); [|congruence].
      exists mid. by apply (chain_same_edges (raw_dependencies root')).
  - destruct (proj1 Hsame) as [? ?]; [by eexists|done].
  - destruct (proj2 Hsame) as [? ?]; [by eexists|done].
  - done.
Qed.

(** X20. The sets of the returned mapping do not depend on the order of the
    members: two declaration bodies with the same members in a different
    order yield the same set for every name, so the comparator built from
    either mapping is the same. *)
Theorem extractDependencies_member_order
    (root root' : Node) (m m' : DataDependencyMap) :
  declaration_body root = true → declaration_body root' = true →
  children root ≡ₚ children root' →
  extractDependencies root = Returned m →
  extractDependencies root' = Returned m' →
  (∀ k, Dict.get m k = Dict.get m' k)
  ∧ ∀ a b, dataDependency m a b = dataDependency m' a b.
Proof.
  intros Hroot Hroot' Hperm Hrun Hrun'.
  assert (∀ k, Dict.get m k = Dict.get m' k) as Hget.
  { intros k. apply (extractDependencies_same_edges root root'); [| |done..].
    - intros k' d. by apply raw_dependencies_edges_permutation.
    - intros k' d. by apply raw_dependencies_edges_permutation. }
  split; [done|]. intros a b. unfold dataDependency, C_by, resolve.
  destruct (extractName a) as [name_a|], (extractName b) as [name_b|];
    by rewrite ?Hget.
Qed.

Lemma extractDependencies_member_order_witness :
  extractDependencies
    (ClassBody Sample.base
       [Sample.field "b" (Sample.this_ "c"); Sample.field "a" Sample.one;
        Sample.field "c" (Sample.this_ "a")])
  = Returned [("b", ["a"; "c"]); ("c", ["a"])]
  ∧ (∀ k, Dict.get [("c", ["a"]); ("b", ["a"; "c"])] k
          = Dict.get [("b", ["a"; "c"]); ("c", ["a"])] k).
Proof.
  split; [reflexivity|].
  apply (extractDependencies_member_order Sample.field_chain
           (ClassBody Sample.base
              [Sample.field "b" (Sample.this_ "c"); Sample.field "a" Sample.one;
               Sample.field "c" (Sample.this_ "a")])
           [("c", ["a"]); ("b", ["a"; "c"])]
           [("b", ["a"; "c"]); ("c", ["a"])]); try reflexivity.
  symmetry. exact (reverse_Permutation (children Sample.field_chain)).
Defined.

(** ** The rewritten declaration in the store *)

Lemma Store_sorted_members_result {Options : Type}
    (comparator :
       Options → DataDependencyMap →
       option Store.Node → option Store.Node → Order)
    (memberNodes : option Store.Node → bool)
    (C_capture :
       (option Store.Node → bool) →
       (option Store.Node → option Store.Node → Order) →
       option Store.Node → option Store.Node → Order)
    (Array_sort_by :
       (option Store.Node → option Store.Node → Order) →
       list (option Store.Node) → list (option Store.Node))
    (options : Options) s t n members elems :
  represents s t n → s !! members = Some (Store.Nodes elems) →
  ∃ m s',
    extractDependencies t = Returned m
    ∧ Store.sorted_members comparator memberNodes C_capture Array_sort_by
        (S (node_size t)) (S (length (raw_dependencies t)))
        options n members s = Some (length s, s')
    ∧ s' !! length s
      = Some (Store.Nodes
                (Array_sort_by (C_capture memberNodes (comparator options m))
                   elems))
    ∧ s' !! members = Some (Store.Nodes elems).
Proof.
  intros Hrep Hmembers. unfold Store.sorted_members.
  set (s1 := s ++ [Store.Nodes elems]).
  destruct (extractDependencies_returns t) as (m & Hm & _).
  destruct (Store_extractDependencies_refines s1 t n
              (S (node_size t)) (S (length (raw_dependencies t))) m)
    as (hm & s2 & Hrun & Hcontents & Hkeep); [|lia|done|].
  { by apply (represents_keeps s s1 (keeps_nodes_alloc s _)). }
  assert (s2 !! length s = Some (Store.Nodes elems)) as Hcopy.
  { apply Hkeep. by apply list_lookup_middle. }
  assert (s2 !! members = Some (Store.Nodes elems)) as Hinput.
  { apply Hkeep. by apply lookup_app_l_Some. }
  exists m. eexists. split_and!; [done|..].
  - eapply run_bind; [by apply run_read_nodes|].
    eapply run_bind; [reflexivity|].
    eapply run_bind; [exact Hrun|].
    eapply run_bind; [reflexivity|].
    eapply run_bind; [by apply run_read_nodes|].
    eapply run_bind; [apply run_write; by rewrite Hcopy|]. done.
  - rewrite Hcontents. apply list_lookup_insert_eq.
    apply lookup_lt_is_Some. by rewrite Hcopy.
  - rewrite list_lookup_insert_ne; [done|].
    apply lookup_lt_Some in Hmembers. lia.
Qed.



(** ** Calls through [this] *)

Lemma drain_edges_congr q q' m k d :
  Forall2 (λ e e', edge (drain [e] []) k d ↔ edge (drain [e'] []) k d) q q' →
  edge (drain q m) k d ↔ edge (drain q' m) k d.
Proof.
  intros Hall. rewrite !drain_edges.
  assert ((∃ e, e ∈ q ∧ edge (drain [e] []) k d)
          ↔ ∃ e', e' ∈ q' ∧ edge (drain [e'] []) k d) as ->; [|done].
  induction Hall as [|e e' q q' He _ IH].
  - split; by intros (? & ?%elem_of_nil & _).
  - split.
    + intros (x & [->|Hx]%elem_of_cons & Hedge).
      * exists e'. split; [left|by apply He].
      * destruct (proj1 IH) as (x' & ? & ?); [by exists x|].
        exists x'. split; [by right|done].
    + intros (x & [->|Hx]%elem_of_cons & Hedge).
      * exists e. split; [left|by apply He].
      * destruct (proj2 IH) as (x' & ? & ?); [by exists x|].
        exists x'. split; [by right|done].
Qed.

Lemma drain_single e k d :
  edge (drain [e] []) k d
  ↔ edge (visit e []).2 k d
    ∨ ∃ e', e' ∈ (visit e []).1 ∧ edge (drain [e'] []) k d.
Proof. rewrite drain_cons. cbn [app]. apply drain_edges. Qed.

Lemma no_edge_nil k d : ¬ edge [] k d.
Proof. by intros (? & ? & ?). Qed.

Lemma call_through_this_edges p prop callee arguments k d :
  (∀ object property, callee ≠ MemberExpression object property) →
  edge (drain [ {| parent := p;
                   node := Some (CallExpression
                                   (MemberExpression ThisExpression prop)
                                   arguments) |} ] []) k d
  ↔ edge (drain [ {| parent := p;
                     node := Some (CallExpression callee arguments) |} ] []) k d.
Proof.
  intros Hcallee. rewrite !drain_single. unfold visit. cbn [node parent fst snd].
  assert (match callee with
          | MemberExpression object _ =>
              [queueEntryMapper
                 {| parent := p; node := Some (CallExpression callee arguments) |}
                 (CallExpression callee arguments) (Some object)]
          | _ => []
          end = []) as ->.
  { destruct callee; try done. by destruct (Hcallee callee1 callee2). }
  cbn [app]. split.
  - intros [?|(e & [->|He]%elem_of_cons & Hedge)]; [by left| |].
    + apply drain_single in Hedge as [Hedge|(e & He & _)].
      * by apply no_edge_nil in Hedge.
      * by apply elem_of_nil in He.
    + right. by exists e.
  - intros [?|(e & He & Hedge)]; [by left|].
    right. exists e. split; [by right|done].
Qed.

Lemma field_call_through_this_edges p key computed prop callee arguments k d :
  (∀ object property, callee ≠ MemberExpression object property) →
  edge (drain [ {| parent := p;
                   node := Some (PropertyDefinition key computed
                                   (Some (CallExpression
                                            (MemberExpression ThisExpression prop)
                                            arguments))) |} ] []) k d
  ↔ edge (drain [ {| parent := p;
                     node := Some (PropertyDefinition key computed
                                     (Some (CallExpression callee arguments))) |} ]
            []) k d.
Proof.
  intros Hcallee. rewrite !(drain_single {| parent := p |}).
  unfold visit. cbn [node parent fst snd].
  assert (∀ P Q : Prop, (P ↔ Q) →
            (edge [] k d ∨ P ↔ edge [] k d ∨ Q)) as Hor by tauto.
  apply Hor. split.
  - intros (e & ->%list_elem_of_singleton & Hedge). eexists.
    split; [by apply list_elem_of_singleton|].
    by apply (call_through_this_edges _ prop callee arguments k d Hcallee).
  - intros (e & ->%list_elem_of_singleton & Hedge). eexists.
    split; [by apply list_elem_of_singleton|].
    by apply (call_through_this_edges _ prop callee arguments k d Hcallee).
Qed.

(** X22. Calling a method through [this] records no dependency on the
    method: a field initialised with [this.m(args)] gets the returned sets
    it would get with [f(args)] for any callee [f] that is not a member
    access, and so does every other name of the declaration. *)
Theorem extractDependencies_call_through_this
    (kind : BaseNode → list Node → Node) (base : BaseNode)
    (before after : list Node) (key : Node) (computed : bool)
    (prop callee : Node) (arguments : list Node) (m m' : DataDependencyMap) :
  kind = TSInterfaceBody ∨ kind = ClassBody ∨ kind = TSTypeLiteral →
  (∀ object property, callee ≠ MemberExpression object property) →
  let field value := PropertyDefinition key computed (Some value) in
  extractDependencies
    (kind base
       (before
        ++ field (CallExpression (MemberExpression ThisExpression prop) arguments)
        :: after)) = Returned m →
  extractDependencies
    (kind base (before ++ field (CallExpression callee arguments) :: after))
  = Returned m' →
  ∀ k, Dict.get m k = Dict.get m' k.
Proof.
  intros Hkind Hcallee field Hrun Hrun' k.
  assert (∀ l, children (kind base l) = l ∧ declaration_body (kind base l) = true)
    as Hbody by (by destruct Hkind as [->|[->| ->]]).
  assert (∀ k' d,
            Forall2 (λ e e', edge (drain [e] []) k' d ↔ edge (drain [e'] []) k' d)
              ((λ n, {| parent := None; node := Some n |}) <$>
                 before
                 ++ field (CallExpression (MemberExpression ThisExpression prop)
                             arguments) :: after)
              ((λ n, {| parent := None; node := Some n |}) <$>
                 before ++ field (CallExpression callee arguments) :: after))
    as Hall.
  { intros k' d. rewrite !fmap_app, !fmap_cons.
    apply Forall2_app; [by apply Forall_Forall2_diag, Forall_true|].
    constructor; [|by apply Forall_Forall2_diag, Forall_true].
    by apply field_call_through_this_edges. }
  eapply extractDependencies_same_edges; [| |exact Hrun|exact Hrun'].
  - intros k' d.
    rewrite !raw_dependencies_body by apply Hbody.
    rewrite !(proj1 (Hbody _)).
    apply (proj1 (drain_edges_congr _ _ [] k' d (Hall k' d))).
  - intros k' d.
    rewrite !raw_dependencies_body by apply Hbody.
    rewrite !(proj1 (Hbody _)).
    apply (proj2 (drain_edges_congr _ _ [] k' d (Hall k' d))).
Qed.

Lemma extractDependencies_call_through_this_witness :
  extractDependencies
    (ClassBody Sample.base
       [Sample.field "a" Sample.one;
        Sample.field "b"
          (CallExpression (Sample.this_ "m") [Sample.this_ "a"])])
  = Returned [("b", ["a"])]
  ∧ ∀ k, Dict.get [("b", ["a"])] k = Dict.get [("b", ["a"])] k.
Proof.
  split; [reflexivity|].
  apply (extractDependencies_call_through_this ClassBody Sample.base
           [Sample.field "a" Sample.one] [] (Identifier "b") false
           (Identifier "m") (Identifier "f") [Sample.this_ "a"]
           [("b", ["a"])] [("b", ["a"])]).
  - right. by left.
  - done.
  - reflexivity.
  - reflexivity.
Defined.

(** ** Angular [inject] fields *)

Lemma not_live_no_edge e k d : live e = false → ¬ edge (drain [e] []) k d.
Proof.
  intros Hlive. rewrite drain_single, (visit_not_live e [] Hlive). cbn.
  intros [?%no_edge_nil|(? & ?%elem_of_nil & _)]; done.
Qed.

Lemma isAngularInject_no_edge p key computed callee arguments k d :
  isAngularInject
    (PropertyDefinition key computed (Some (CallExpression callee arguments)))
  = true →
  Forall (λ argument, has_case argument = false) arguments →
  ¬ edge (drain [ {| parent := p;
                     node := Some (PropertyDefinition key computed
                                     (Some (CallExpression callee arguments))) |} ]
            []) k d.
Proof.
  intros Hinject Harguments. cbn in Hinject. apply bool_decide_eq_true in Hinject.
  rewrite drain_single. unfold visit at 1 2. cbn [node parent fst snd].
  intros [?%no_edge_nil|(e & ->%list_elem_of_singleton & Hedge)]; [done|].
  apply drain_single in Hedge.
  assert (∃ p', (visit (queueEntryMapper
                          {| parent := p;
                             node := Some (PropertyDefinition key computed
                                             (Some (CallExpression callee arguments))) |}
                          (PropertyDefinition key computed
                             (Some (CallExpression callee arguments)))
                          (Some (CallExpression callee arguments))) [])
                = ((λ argument, {| parent := p'; node := Some argument |})
                     <$> arguments, [])) as [p' Hvisit].
  { eexists. unfold visit. cbn [node parent queueEntryMapper].
    by destruct callee. }
  rewrite Hvisit in Hedge. cbn [fst snd] in Hedge.
  destruct Hedge as [?%no_edge_nil|(e & He & Hedge)]; [done|].
  apply list_elem_of_fmap in He as (argument & -> & Hargument).
  apply (not_live_no_edge _ k d) in Hedge; [done|].
  rewrite Forall_forall in Harguments. by apply Harguments.
Qed.

(** X23. A field [isAngularInject] recognises, whose arguments are of
    kinds the traversal has no case for (identifiers, literals, ...), adds
    nothing to the mapping: the declaration yields the sets it yields
    without the field. *)
Theorem isAngularInject_field_adds_nothing
    (kind : BaseNode → list Node → Node) (base : BaseNode)
    (before after : list Node) (key : Node) (computed : bool)
    (callee : Node) (arguments : list Node) (m m' : DataDependencyMap) :
  let member :=
    PropertyDefinition key computed (Some (CallExpression callee arguments)) in
  kind = TSInterfaceBody ∨ kind = ClassBody ∨ kind = TSTypeLiteral →
  isAngularInject member = true →
  Forall (λ argument, has_case argument = false) arguments →
  extractDependencies (kind base (before ++ member :: after)) = Returned m →
  extractDependencies (kind base (before ++ after)) = Returned m' →
  ∀ k, Dict.get m k = Dict.get m' k.
Proof.
  intros member Hkind Hinject Harguments Hrun Hrun' k.
  assert (∀ l, children (kind base l) = l ∧ declaration_body (kind base l) = true)
    as Hbody by (by destruct Hkind as [->|[->| ->]]).
  eapply extractDependencies_same_edges; [| |exact Hrun|exact Hrun'].
  - intros k' d. rewrite !raw_dependencies_body by apply Hbody.
    rewrite !(proj1 (Hbody _)), !drain_edges.
    intros [?|(e & He & Hedge)]; [by left|]. right. exists e. split; [|done].
    rewrite fmap_app, fmap_cons in He. rewrite fmap_app.
    apply elem_of_app in He as [He|[->|He]%elem_of_cons]; apply elem_of_app.
    + by left.
    + by apply isAngularInject_no_edge in Hedge.
    + by right.
  - intros k' d. rewrite !raw_dependencies_body by apply Hbody.
    rewrite !(proj1 (Hbody _)), !drain_edges.
    intros [?|(e & He & Hedge)]; [by left|]. right. exists e. split; [|done].
    rewrite fmap_app in He. rewrite fmap_app, fmap_cons.
    apply elem_of_app in He as [He|He]; apply elem_of_app;
      [by left|by right; right].
Qed.

Lemma isAngularInject_field_adds_nothing_witness :
  extractDependencies
    (ClassBody Sample.base
       [Sample.field "a" (CallExpression (Identifier "inject") [Identifier "A"]);
        Sample.field "b" (Sample.this_ "a")])
  = Returned [("b", ["a"])]
  ∧ ∀ k, Dict.get [("b", ["a"])] k = Dict.get [("b", ["a"])] k.
Proof.
  split; [reflexivity|].
  apply (isAngularInject_field_adds_nothing ClassBody Sample.base
           [] [Sample.field "b" (Sample.this_ "a")] (Identifier "a") false
           (Identifier "inject") [Identifier "A"]
           [("b", ["a"])] [("b", ["a"])]).
  - right. by left.
  - reflexivity.
  - by repeat constructor.
  - reflexivity.
  - reflexivity.
Defined.

(** ** Sizes along a dependency *)

(** X24. In the returned mapping a member that is not on a cycle has a
    strictly smaller set than every member that depends on it, so the
    comparison of sizes never contradicts a dependency. *)
Theorem extractDependencies_sets_grow
    (root : Node) (m : DataDependencyMap) (a b : string)
    (deps_a deps_b : list string) :
  extractDependencies root = Returned m →
  Dict.get m a = Some deps_a →
  Dict.get m b = Some deps_b →
  b ∈ deps_a →
  b ∉ deps_b →
  length deps_b < length deps_a.
Proof.
  intros (_ & _ & Hclosed & Hclean & _)%extractDependencies_spec Ha Hb Hin Hself.
  destruct (Hclean b deps_b Hb) as [Hnd _].
  assert (b :: deps_b ⊆+ deps_a) as Hsub%submseteq_length; [|cbn in Hsub; lia].
  apply NoDup_submseteq; [by constructor|].
  intros x [->|Hx]%elem_of_cons; [done|]. by apply (Hclosed a deps_a b deps_b).
Qed.

Lemma extractDependencies_sets_grow_witness :
  extractDependencies Sample.field_chain
  = Returned [("c", ["a"]); ("b", ["a"; "c"])]
  ∧ length ["a"] < length ["a"; "c"].
Proof.
  split; [reflexivity|].
  apply (extractDependencies_sets_grow Sample.field_chain
           [("c", ["a"]); ("b", ["a"; "c"])] "b" "c" ["a"; "c"] ["a"]);
    try reflexivity.
  - apply list_elem_of_In. cbn. tauto.
  - intros Hin. apply list_elem_of_singleton in Hin. discriminate.
Defined.
